(** * bvh_skeleton_probe: hierarchy parser and name mapper

    A shallow embedding of [scripts/bandai_test/bvh_skeleton_probe.py]:
    the routing of the file's lines into header and motion blocks, the
    frame-rate extraction, the stack-driven hierarchy parser and the
    heuristic name mapper, followed by the properties they satisfy.

    Conventions of the embedding.
    - A Python [str] is a [string]; a character is its code point, for
      code points below 256.  The names the parser captures are ASCII.
    - A Python [dict] is a [gmap] keyed by strings; the insertion order of a
      dict is not observed by any property stated here.
    - A call that may raise returns a [result]: [Ok v] or [Raise e]. *)

From Stdlib Require Import ZArith Ascii Bool.
From stdpp Require Import gmap strings list fin_maps.

Local Open Scope Z_scope.

(** ** Exceptions *)

Inductive exn : Set := ValueError | OverflowError.

Inductive result (A : Type) : Type :=
| Ok (a : A)
| Raise (e : exn).
Arguments Ok {A} a.
Arguments Raise {A} e.

#[global] Instance result_ret : MRet result := fun _ a => Ok a.
#[global] Instance result_bind : MBind result := fun _ _ f m =>
  match m with Ok a => f a | Raise e => Raise e end.

#[global] Instance result_fmap : FMap result := fun _ _ f m =>
  match m with Ok a => Ok (f a) | Raise e => Raise e end.

Definition returns {A} (r : result A) : Prop := exists a, r = Ok a.

(** ** Python string primitives *)

Module Py.

Definition code (c : ascii) : N := N_of_ascii c.

Definition between (lo hi : N) (c : ascii) : bool :=
  ((lo <=? code c) && (code c <=? hi))%N.

(** [str.isspace] on one character, which is also what [\s] matches in a
    [str] pattern: TAB..CR, FS..US, SPACE, NEL and NBSP. *)
Definition is_space (c : ascii) : bool :=
  between 9 13 c || between 28 32 c || (code c =? 133)%N || (code c =? 160)%N.

Definition is_digit (c : ascii) : bool := between 48 57 c.
Definition is_upper (c : ascii) : bool := between 65 90 c.
Definition is_lower (c : ascii) : bool := between 97 122 c.

Definition is_char (x c : ascii) : bool := (code c =? code x)%N.

Fixpoint drop_while (p : ascii -> bool) (s : string) : string :=
  match s with
  | EmptyString => EmptyString
  | String c t => if p c then drop_while p t else s
  end.

Fixpoint take_while (p : ascii -> bool) (s : string) : string :=
  match s with
  | EmptyString => EmptyString
  | String c t => if p c then String c (take_while p t) else EmptyString
  end.

(** [s.startswith(p)]. *)
Fixpoint startswith (p s : string) : bool :=
  match p, s with
  | EmptyString, _ => true
  | String a p', String b s' => is_char a b && startswith p' s'
  | String _ _, EmptyString => false
  end.

(** The rest of [s] after the literal [p], when [s] starts with it. *)
Fixpoint after_literal (p s : string) : option string :=
  match p, s with
  | EmptyString, _ => Some s
  | String a p', String b s' => if is_char a b then after_literal p' s' else None
  | String _ _, EmptyString => None
  end.

(** [p in s] for strings. *)
Fixpoint contains (p s : string) : bool :=
  startswith p s ||
  match s with
  | EmptyString => false
  | String _ t => contains p t
  end.

Fixpoint rev_string (acc s : string) : string :=
  match s with
  | EmptyString => acc
  | String c t => rev_string (String c acc) t
  end.

(** [s.strip()]. *)
Definition lstrip (s : string) : string := drop_while is_space s.
Definition rstrip (s : string) : string :=
  rev_string EmptyString (drop_while is_space (rev_string EmptyString s)).
Definition strip (s : string) : string := rstrip (lstrip s).

(** [str.lower] on one character: the ASCII capitals and the Latin-1
    capitals (all of 192..222 but the multiplication sign 215). *)
Definition lower_char (c : ascii) : ascii :=
  if is_upper c || (between 192 222 c && negb (code c =? 215)%N)
  then ascii_of_N (code c + 32) else c.

Fixpoint lower (s : string) : string :=
  match s with
  | EmptyString => EmptyString
  | String c t => String (lower_char c) (lower t)
  end.

Definition is_empty (s : string) : bool :=
  match s with EmptyString => true | _ => false end.

(** Line boundaries of [str.splitlines]: LF, VT, FF, CR, FS, GS, RS, NEL
    (and CR LF taken as one). *)
Definition is_linebreak (c : ascii) : bool :=
  between 10 13 c || between 28 30 c || (code c =? 133)%N.

(** [text.splitlines()]: [cur] is the line being read, reversed. *)
Fixpoint splitlines_from (cur : string) (s : string) : list string :=
  match s with
  | EmptyString => if is_empty cur then [] else [rev_string EmptyString cur]
  | String c t =>
      if is_linebreak c then
        rev_string EmptyString cur ::
        (match t with
         | String c' t' =>
             if is_char "013" c && is_char "010" c'
             then splitlines_from EmptyString t'
             else splitlines_from EmptyString t
         | EmptyString => []
         end)
      else splitlines_from (String c cur) t
  end.

Definition splitlines (s : string) : list string :=
  splitlines_from EmptyString s.

End Py.

(** ** The regular expressions of the script

    Each pattern is matched the way [re] matches it.  The classes that
    follow one another in a pattern are disjoint (white space against
    letters, digits and punctuation), so the greedy match is the only one
    and no backtracking is involved. *)

Module Re.
Import Py.

(** [[A-Za-z0-9_\-\.]] *)
Definition name_char (c : ascii) : bool :=
  is_upper c || is_lower c || is_digit c ||
  is_char "_" c || is_char "-" c || is_char "." c.

(** [[0-9\.\-eE]] *)
Definition offset_char (c : ascii) : bool :=
  is_digit c || is_char "." c || is_char "-" c || is_char "e" c || is_char "E" c.

(** [[0-9\.eE+-]] *)
Definition time_char (c : ascii) : bool :=
  is_digit c || is_char "." c || is_char "e" c || is_char "E" c ||
  is_char "+" c || is_char "-" c.

(** [\s+]: the rest after one or more white-space characters. *)
Definition spaces1 (s : string) : option string :=
  match s with
  | String c t => if is_space c then Some (drop_while is_space t) else None
  | EmptyString => None
  end.

(** [(cls+)]: the longest non-empty run of the class, and the rest. *)
Definition run1 (cls : ascii -> bool) (s : string) : option (string * string) :=
  let g := take_while cls s in
  if is_empty g then None else Some (g, drop_while cls s).

(** [(ROOT|JOINT)] *)
Definition root_or_joint (s : string) : option (string * string) :=
  match after_literal "ROOT" s with
  | Some r => Some ("ROOT", r)
  | None =>
      match after_literal "JOINT" s with
      | Some r => Some ("JOINT", r)
      | None => None
      end
  end.

(** [re_joint.match(ln)], with
    [re_joint = ^\s*(ROOT|JOINT)\s+([A-Za-z0-9_\-\.]+)]:
    the groups [(typ, name)]. *)
Definition re_joint (ln : string) : option (string * string) :=
  '(typ, r) ← root_or_joint (drop_while is_space ln);
  r ← spaces1 r;
  '(name, _) ← run1 name_char r;
  Some (typ, name).

(** [re_end.match(ln)], with [re_end = ^\s*End Site]. *)
Definition re_end (ln : string) : bool :=
  startswith "End Site" (drop_while is_space ln).

(** [re_offset.match(ln)], with
    [re_offset = ^\s*OFFSET\s+(F)\s+(F)\s+(F)] and [F = [0-9\.\-eE]+]:
    the three groups. *)
Definition re_offset (ln : string) : option (string * string * string) :=
  r ← after_literal "OFFSET" (drop_while is_space ln);
  r ← spaces1 r;
  '(x, r) ← run1 offset_char r;
  r ← spaces1 r;
  '(y, r) ← run1 offset_char r;
  r ← spaces1 r;
  '(z, _) ← run1 offset_char r;
  Some (x, y, z).

(** The pattern [Frame Time:\s*([0-9\.eE+-]+)] tried at the start of [s]. *)
Definition frame_time_here (s : string) : option string :=
  r ← after_literal "Frame Time:" s;
  '(g, _) ← run1 time_char (drop_while is_space r);
  Some g.

(** [re.search(r"Frame Time:\s*([0-9\.eE+-]+)", ln)]: group 1 of the
    leftmost match. *)
Fixpoint re_frame_time (ln : string) : option string :=
  match frame_time_here ln with
  | Some g => Some g
  | None =>
      match ln with
      | EmptyString => None
      | String _ t => re_frame_time t
      end
  end.

End Re.

(** ** Python floats

    A [float] is an IEEE 754 binary64 value.  The values that arise here
    are never NaN: they come from decimal literals and from one division
    of [1.0] by a positive value.  The magnitude of a finite non-zero
    value is [m * 2^e] with [m] of at most 53 bits, in its canonical
    form: [2^52 <= m < 2^53] and [-1074 <= e <= 971], or [m < 2^52] and
    [e = -1074] for a subnormal. *)

Module Float.
Import Py.

Inductive magnitude : Set :=
| Zero
| Finite (m : Z) (e : Z)
| Infinity.

Record float : Set := Float { negative : bool; mag : magnitude }.

(** [2^k <= n/d], for positive [n] and [d]. *)
Definition pow2_le (k n d : Z) : bool :=
  d * 2 ^ Z.max 0 k <=? n * 2 ^ Z.max 0 (- k).

(** The integer nearest to [n/d], ties to the even one. *)
Definition div_half_even (n d : Z) : Z :=
  let q := n / d in
  let r := n mod d in
  if 2 * r <? d then q
  else if d <? 2 * r then q + 1
  else if Z.even q then q else q + 1.

(** The binary64 magnitude nearest to [n/d], ties to even, for positive
    [n] and [d]: what a correctly rounded conversion or operation returns. *)
Definition round_b64 (n d : Z) : magnitude :=
  let k := Z.log2 n - Z.log2 d in
  let lg := if pow2_le k n d then k else k - 1 in
  let e := Z.max (lg - 52) (-1074) in
  let m := div_half_even (n * 2 ^ Z.max 0 (- e)) (d * 2 ^ Z.max 0 e) in
  let '(m, e) := if m =? 2 ^ 53 then (2 ^ 52, e + 1) else (m, e) in
  if m =? 0 then Zero
  else if 971 <? e then Infinity
  else Finite m e.

(** [x > 0]. *)
Definition is_positive (x : float) : bool :=
  negb (negative x) && match mag x with Zero => false | _ => true end.

(** [1.0 / x] for [x > 0]. *)
Definition one_over (x : float) : float :=
  Float false
    match mag x with
    | Zero => Infinity
    | Infinity => Zero
    | Finite m e => round_b64 (2 ^ Z.max 0 (- e)) (m * 2 ^ Z.max 0 e)
    end.

(** [round(x)]: the nearest integer, ties to even; infinity cannot be
    converted to an integer. *)
Definition round (x : float) : result Z :=
  match mag x with
  | Zero => Ok 0
  | Infinity => Raise OverflowError
  | Finite m e =>
      let a := div_half_even (m * 2 ^ Z.max 0 e) (2 ^ Z.max 0 (- e)) in
      Ok (if negative x then - a else a)
  end.

(** *** Decimal literals *)

Definition digit_value (c : ascii) : Z := Z.of_N (code c) - 48.

Fixpoint digits_value (acc : Z) (s : string) : Z :=
  match s with
  | EmptyString => acc
  | String c t => digits_value (10 * acc + digit_value c) t
  end.

Definition is_sign (c : ascii) : bool := is_char "+" c || is_char "-" c.

(** An optional sign: whether it is a minus, and the rest. *)
Definition opt_sign (s : string) : bool * string :=
  match s with
  | String c t => if is_sign c then (is_char "-" c, t) else (false, s)
  | EmptyString => (false, s)
  end.

(** The exponent part [[eE][+-]?digits], or nothing, up to the end of the
    literal. *)
Definition exponent (s : string) : option Z :=
  match s with
  | EmptyString => Some 0
  | String c t =>
      if is_char "e" c || is_char "E" c then
        let '(neg, t) := opt_sign t in
        let ds := take_while is_digit t in
        if is_empty ds || negb (is_empty (drop_while is_digit t)) then None
        else Some (if neg then - digits_value 0 ds else digits_value 0 ds)
      else None
  end.

(** The literal as [(negative, mantissa, exponent)], for the value
    [mantissa * 10^exponent]: an optional sign, digits with at most one
    point and at least one digit, an optional exponent, and nothing else. *)
Definition decimal (s : string) : option (bool * Z * Z) :=
  let '(neg, s) := opt_sign s in
  let ip := take_while is_digit s in
  let s := drop_while is_digit s in
  let '(fp, s) :=
    match s with
    | String c t =>
        if is_char "." c then (take_while is_digit t, drop_while is_digit t)
        else (EmptyString, s)
    | EmptyString => (EmptyString, s)
    end in
  if is_empty ip && is_empty fp then None
  else
    ex ← exponent s;
    Some (neg, digits_value (digits_value 0 ip) fp, ex - Z.of_nat (String.length fp)).

(** [float(s)] for a field captured by [re_offset] or by the frame-time
    pattern: such a field has no white space, underscore or letter other
    than [e] and [E], so it is a decimal literal or [float] raises
    [ValueError]. *)
Definition of_str (s : string) : result float :=
  match decimal s with
  | None => Raise ValueError
  | Some (neg, m, ex) =>
      Ok (Float neg
            (if m =? 0 then Zero
             else round_b64 (m * 10 ^ Z.max 0 ex) (10 ^ Z.max 0 (- ex))))
  end.

End Float.

Import Py Re.

(** ** read_bvh_header *)

Record blocks : Type := Blocks {
  in_hier : bool;
  in_motion : bool;
  header_lines : list string;
  motion_lines : list string
}.

Definition no_blocks : blocks := Blocks false false [] [].

(** One turn of the loop that routes the lines of the file. *)
Definition route (b : blocks) (ln : string) : blocks :=
  if startswith "HIERARCHY" (strip ln) then
    Blocks true (in_motion b) (header_lines b) (motion_lines b)
  else
    let b :=
      if startswith "MOTION" (strip ln)
      then Blocks false true (header_lines b) (motion_lines b)
      else b in
    if in_motion b then
      Blocks (in_hier b) (in_motion b) (header_lines b) (motion_lines b ++ [ln])
    else if in_hier b then
      Blocks (in_hier b) (in_motion b) (header_lines b ++ [ln]) (motion_lines b)
    else b.

(** [fps] given the matched text of a frame-time line. *)
Definition fps_of_match (g : string) : result (option Z) :=
  dt ← Float.of_str g;
  if Float.is_positive dt then
    fps ← Float.round (Float.one_over dt);
    Ok (Some fps)
  else Ok None.

(** The loop over [motion_lines], left at the first line that matches. *)
Fixpoint parse_fps (motion : list string) : result (option Z) :=
  match motion with
  | [] => Ok None
  | ln :: rest =>
      match re_frame_time ln with
      | Some g => fps_of_match g
      | None => parse_fps rest
      end
  end.

(** [read_bvh_header], as a function of the text read from the file. *)
Definition read_bvh_header (text : string) : result (list string * option Z) :=
  let b := foldl route no_blocks (splitlines text) in
  fps ← parse_fps (motion_lines b);
  Ok (header_lines b, fps).

(** ** parse_hierarchy *)

Definition vec3 : Set := (Float.float * Float.float * Float.float)%type.

(** The local variables of [parse_hierarchy].  [stack] holds the Python
    list from its last element to its first: the head is [stack[-1]]. *)
Record pstate : Type := PState {
  children : gmap string (list string);
  offsets : gmap string vec3;
  order : list string;
  stack : list string;
  current : option string;
  root_name : option string
}.

Definition pstate_init : pstate := PState ∅ ∅ [] [] None None.

(** [children[p].append(name)] on a [defaultdict(list)]. *)
Definition append_child (p name : string) (ch : gmap string (list string)) :
    gmap string (list string) :=
  <[p := default [] (ch !! p) ++ [name]]> ch.

(** The truth value of [current]: neither [None] nor the empty string. *)
Definition truthy (c : option string) : bool :=
  match c with
  | Some n => negb (is_empty n)
  | None => false
  end.

(** The branch of a [ROOT] or [JOINT] line. *)
Definition declare (name : string) (st : pstate) : pstate :=
  PState
    (match current st with
     | Some cur => append_child cur name (children st)
     | None => children st
     end)
    (offsets st)
    (order st ++ [name])
    (name :: stack st)
    (Some name)
    (match current st with
     | Some _ => root_name st
     | None => Some name
     end).

(** The branch of a line with a closing brace. *)
Definition close_brace (st : pstate) : pstate :=
  match stack st with
  | [] => st
  | _ :: rest =>
      PState (children st) (offsets st) (order st) rest (head rest) (root_name st)
  end.

(** The last two statements of the loop body: the [OFFSET] line. *)
Definition record_offset (ln : string) (st : pstate) : result pstate :=
  match re_offset ln with
  | Some (gx, gy, gz) =>
      match current st with
      | Some cur =>
          if truthy (current st) then
            x ← Float.of_str gx;
            y ← Float.of_str gy;
            z ← Float.of_str gz;
            Ok (PState (children st) (<[cur := (x, y, z)]> (offsets st))
                  (order st) (stack st) (current st) (root_name st))
          else Ok st
      | None => Ok st
      end
  | None => Ok st
  end.

(** The body of the loop over [header_lines]. *)
Definition step (st : pstate) (ln : string) : result pstate :=
  match re_joint ln with
  | Some (_, name) => Ok (declare name st)
  | None =>
      if re_end ln then Ok st
      else if contains "{" ln then Ok st
      else if contains "}" ln then Ok (close_brace st)
      else record_offset ln st
  end.

Fixpoint run (st : pstate) (lines : list string) : result pstate :=
  match lines with
  | [] => Ok st
  | ln :: rest => st' ← step st ln; run st' rest
  end.

Definition hierarchy : Type :=
  option string * gmap string (list string) * gmap string vec3 * list string.

(** [parse_hierarchy(header_lines)]:
    [(root_name, dict(children), offsets, order)]. *)
Definition parse_hierarchy (lines : list string) : result hierarchy :=
  st ← run pstate_init lines;
  Ok (root_name st, children st, offsets st, order st).

(** ** suggest_map *)

Definition CANONICAL_GMR_SET : list string :=
  [ "Hips"; "Spine"; "Spine1"; "Spine2"; "Neck"; "Head";
    "LeftShoulder"; "LeftArm"; "LeftForeArm"; "LeftHand";
    "RightShoulder"; "RightArm"; "RightForeArm"; "RightHand";
    "LeftUpLeg"; "LeftLeg"; "LeftFoot"; "LeftToe";
    "RightUpLeg"; "RightLeg"; "RightFoot"; "RightToe" ].

Definition LEFT_PREFIXES : list string := ["Left"; "L"].
Definition RIGHT_PREFIXES : list string := ["Right"; "R"].
Definition TOE_HINTS : list string := ["ToeBase"; "Toe"; "toe"; "toes"].

Definition is_left (name : string) : bool :=
  existsb (fun p => startswith p name) LEFT_PREFIXES.

Definition is_right (name : string) : bool :=
  existsb (fun p => startswith p name) RIGHT_PREFIXES.

(** [x in l] for a list of strings. *)
Definition in_list (x : string) (l : list string) : bool := bool_decide (x ∈ l).

(** [k in name_map]. *)
Definition has_key (k : string) (m : gmap string string) : bool :=
  match m !! k with Some _ => true | None => false end.

Definition variants : list (string * string) :=
  [ ("LeftToeBase", "LeftToe");
    ("RightToeBase", "RightToe");
    ("LeftUpLegRoll", "LeftUpLeg");
    ("RightUpLegRoll", "RightUpLeg");
    ("LeftArmRoll", "LeftArm");
    ("RightArmRoll", "RightArm");
    ("LeftForeArmRoll", "LeftForeArm");
    ("RightForeArmRoll", "RightForeArm") ].

(** Pass-through for identical names. *)
Definition identity_step (m : gmap string string) (n : string) : gmap string string :=
  if in_list n CANONICAL_GMR_SET then <[n := n]> m else m.

Definition identity_pass (order : list string) (m : gmap string string) :
    gmap string string :=
  foldl identity_step m order.

(** Common variants. *)
Definition variant_step (order : list string) (m : gmap string string)
    (v : string * string) : gmap string string :=
  if in_list v.1 order && in_list v.2 CANONICAL_GMR_SET then <[v.1 := v.2]> m else m.

Definition variant_pass (order : list string) (m : gmap string string) :
    gmap string string :=
  foldl (variant_step order) m variants.

(** Shoulder variants: the two [if] statements of the loop body. *)
Definition clavicle_step (m : gmap string string) (n : string) : gmap string string :=
  let low := lower n in
  let m :=
    if contains "clavicle" low && negb (has_key "LeftShoulder" m) && is_left n
    then <[n := "LeftShoulder"]> m else m in
  if contains "clavicle" low && negb (has_key "RightShoulder" m) && is_right n
  then <[n := "RightShoulder"]> m else m.

Definition clavicle_pass (order : list string) (m : gmap string string) :
    gmap string string :=
  foldl clavicle_step m order.

(** Heuristic toe pick. *)
Definition toe_hinted (n : string) : bool :=
  existsb (fun h => contains h n) TOE_HINTS.

Definition toes_left (order : list string) : list string :=
  List.filter (fun n => is_left n && toe_hinted n) order.

Definition toes_right (order : list string) : list string :=
  List.filter (fun n => is_right n && toe_hinted n) order.

(** [if toes and target not in name_map: name_map[toes[-1]] = target]. *)
Definition toe_pick (toes : list string) (target : string)
    (m : gmap string string) : gmap string string :=
  match last toes with
  | Some src => if negb (has_key target m) then <[src := target]> m else m
  | None => m
  end.

Definition toe_pass (order : list string) (m : gmap string string) :
    gmap string string :=
  toe_pick (toes_right order) "RightToe" (toe_pick (toes_left order) "LeftToe" m).

Definition suggest_map (order : list string) : gmap string string :=
  toe_pass order (clavicle_pass order (variant_pass order (identity_pass order ∅))).

(** ** Vocabulary of the properties *)

(** The name map after each of the first three passes. *)
Definition after_identity (order : list string) : gmap string string :=
  identity_pass order ∅.

Definition after_variants (order : list string) : gmap string string :=
  variant_pass order (after_identity order).

Definition after_clavicle (order : list string) : gmap string string :=
  clavicle_pass order (after_variants order).

(** The test of the clavicle pass on a name. *)
Definition clavicle_named (n : string) : bool := contains "clavicle" (lower n).

(** Every key that passes the clavicle test carries the shoulder of its
    side. *)
Definition sided (m : gmap string string) : Prop :=
  forall k v, m !! k = Some v -> clavicle_named k = true ->
    (is_left k = true /\ v = "LeftShoulder") \/
    (is_right k = true /\ v = "RightShoulder").


(** The traversal of [print_tree]: the rows it prints, as the indentation
    level and the name.  [fuel] bounds the depth of the recursion. *)
Fixpoint print_tree (fuel : nat) (root : option string)
    (ch : gmap string (list string)) (level : nat) : list (nat * option string) :=
  match fuel with
  | O => []
  | S fuel =>
      (level, root) ::
      match root with
      | Some r =>
          flat_map (fun c => print_tree fuel (Some c) ch (S level))
            (default [] (ch !! r))
      | None => []
      end
  end.

(** What the loop body does with a line, by the first test that succeeds. *)
Inductive kind : Set :=
| KJoint (name : string)
| KEnd
| KOpen
| KClose
| KOffset (gx gy gz : string)
| KOther.

Definition classify (ln : string) : kind :=
  match re_joint ln with
  | Some (_, name) => KJoint name
  | None =>
      if re_end ln then KEnd
      else if contains "{" ln then KOpen
      else if contains "}" ln then KClose
      else match re_offset ln with
           | Some (gx, gy, gz) => KOffset gx gy gz
           | None => KOther
           end
  end.

(** The loop body as a function of the kind of the line. *)
Definition step_kind (st : pstate) (k : kind) : result pstate :=
  match k with
  | KJoint name => Ok (declare name st)
  | KEnd | KOpen | KOther => Ok st
  | KClose => Ok (close_brace st)
  | KOffset gx gy gz =>
      match current st with
      | Some cur =>
          if truthy (current st) then
            x ← Float.of_str gx;
            y ← Float.of_str gy;
            z ← Float.of_str gz;
            Ok (PState (children st) (<[cur := (x, y, z)]> (offsets st))
                  (order st) (stack st) (current st) (root_name st))
          else Ok st
      | None => Ok st
      end
  end.

(** The state with another offsets table. *)
Definition with_offsets (o : gmap string vec3) (st : pstate) : pstate :=
  PState (children st) o (order st) (stack st) (current st) (root_name st).

(** The steps of the loop, as a relation. *)
Inductive step_spec (st : pstate) : kind -> pstate -> Prop :=
| step_declare name : step_spec st (KJoint name) (declare name st)
| step_end : step_spec st KEnd st
| step_open : step_spec st KOpen st
| step_other : step_spec st KOther st
| step_close : step_spec st KClose (close_brace st)
| step_offset_skip gx gy gz :
    truthy (current st) = false -> step_spec st (KOffset gx gy gz) st
| step_offset gx gy gz cur x y z :
    current st = Some cur ->
    truthy (current st) = true ->
    Float.of_str gx = Ok x -> Float.of_str gy = Ok y -> Float.of_str gz = Ok z ->
    step_spec st (KOffset gx gy gz) (with_offsets (<[cur := (x, y, z)]> (offsets st)) st).

(** The names of the [ROOT] and [JOINT] lines, in the order of the lines. *)
Definition declared (lines : list string) : list string :=
  omap (fun ln => match classify ln with KJoint n => Some n | _ => None end) lines.

(** [c] is listed among the children of [p]. *)
Definition is_child (ch : gmap string (list string)) (p c : string) : Prop :=
  c ∈ default [] (ch !! p).

(** [a] is a proper ancestor of [n]. *)
Definition ancestor (ch : gmap string (list string)) : relation string :=
  tc (is_child ch).

(** [p] stands before [c] in the list. *)
Definition before (l : list string) (p c : string) : Prop :=
  exists i j : nat, l !! i = Some p /\ l !! j = Some c /\ (i < j)%nat.

(** The number of joints open after a line of kind [k]. *)
Definition depth_after (depth : nat) (k : kind) : nat :=
  match k with
  | KJoint _ => S depth
  | KClose => Nat.pred depth
  | _ => depth
  end.

(** The name a line declares while no joint is open, if it does. *)
Definition tops_of (depth : nat) (k : kind) : list string :=
  match k, depth with
  | KJoint n, O => [n]
  | _, _ => []
  end.

(** The names declared while no joint is open, for the kinds of the lines
    and the number of joints open before them. *)
Fixpoint toplevel (depth : nat) (ks : list kind) : list string :=
  match ks with
  | [] => []
  | k :: ks => tops_of depth k ++ toplevel (depth_after depth k) ks
  end.

(** What the loop keeps true of its variables; [tops] are the names
    declared so far while no joint was open. *)
Record good (tops : list string) (st : pstate) : Prop := Good {
  good_current : current st = head (stack st);
  good_stack : forall n, n ∈ stack st -> n ∈ order st;
  good_tops : forall n, n ∈ tops -> n ∈ order st;
  good_edge : forall p c, is_child (children st) p c -> before (order st) p c;
  good_cover : forall c, c ∈ order st ->
      c ∈ tops \/ exists p, is_child (children st) p c;
  good_root : root_name st = last tops;
  good_unique : NoDup (order st) ->
      (forall p q c,
         is_child (children st) p c -> is_child (children st) q c -> p = q) /\
      (forall p c, c ∈ tops -> ~ is_child (children st) p c) /\
      (forall p, NoDup (default [] (children st !! p)))
}.

(** The fields of an [OFFSET] line are numbers that [float] accepts. *)
Definition numeric (g : string) : Prop := Float.decimal g <> None.

Definition offset_numeric (ln : string) : Prop :=
  match re_offset ln with
  | Some (gx, gy, gz) => numeric gx /\ numeric gy /\ numeric gz
  | None => True
  end.

(** The fields that the loop body converts on the line are numbers: the
    fields of a line that reaches the OFFSET test and passes it. *)
Definition fields_numeric (ln : string) : Prop :=
  match classify ln with
  | KOffset gx gy gz => numeric gx /\ numeric gy /\ numeric gz
  | _ => True
  end.

(** The lines that [read_bvh_header] collects in [motion_lines]. *)
Definition motion_block (text : string) : list string :=
  motion_lines (foldl route no_blocks (splitlines text)).

(** The value captured on the first line that matches the frame-time
    pattern. *)
Definition first_frame_time (motion : list string) : option string :=
  head (omap re_frame_time motion).

(** A captured duration that [float] accepts and whose reciprocal, when
    it is positive, is finite. *)
Definition duration_safe (g : string) : Prop :=
  exists dt, Float.of_str g = Ok dt /\
    (Float.is_positive dt = true ->
     Float.mag (Float.one_over dt) <> Float.Infinity).

(** [current] is the top of the stack, and the names of the stack have at
    least one character. *)
Definition tidy (st : pstate) : Prop :=
  current st = head (stack st) /\
  Forall (fun n => is_empty n = false) (stack st).

(** The lines of a text, put back together. *)
Definition text_of (lines : list string) : string :=
  String.concat (String "010" EmptyString) lines.


(** Brace discipline of a hierarchy block, on the kinds of its lines:
    every declaration and every [End Site] is followed by its opening
    brace, every closing brace closes an open one, nothing stands outside
    the braces, and the block ends when the brace of its first
    declaration closes.  [depth] counts the open braces and [pending]
    tells that the next line must be an opening brace. *)
Fixpoint well_nested (depth : nat) (pending : bool) (ks : list kind) : bool :=
  match ks with
  | [] => Nat.eqb depth 0 && negb pending
  | KJoint _ :: ks => negb pending && well_nested depth true ks
  | KEnd :: ks => negb pending && negb (Nat.eqb depth 0) && well_nested depth true ks
  | KOpen :: ks => pending && well_nested (S depth) false ks
  | KClose :: ks =>
      negb pending &&
      match depth with
      | O => false
      | S O => match ks with [] => true | _ => false end
      | S d => well_nested d false ks
      end
  | KOffset _ _ _ :: ks | KOther :: ks =>
      negb pending && negb (Nat.eqb depth 0) && well_nested depth false ks
  end.

(** A well-formed hierarchy block: it opens with a declaration, its braces
    are well nested, and its joint names are pairwise distinct. *)
Definition well_formed (lines : list string) : Prop :=
  match classify <$> lines with
  | KJoint _ :: _ => well_nested 0 false (classify <$> lines) = true
  | _ => False
  end /\ NoDup (declared lines).

(** A hierarchy block as motion-capture tools write it: every leaf joint
    closes with an End Site block. *)
Definition sample : list string :=
  [ "ROOT Hips";
    "{";
    "  OFFSET 0.0 90.0 0.0";
    "  CHANNELS 6 Xposition Yposition Zposition Zrotation Xrotation Yrotation";
    "  JOINT Spine";
    "  {";
    "    OFFSET 0.0 10.0 0.0";
    "    CHANNELS 3 Zrotation Xrotation Yrotation";
    "    End Site";
    "    {";
    "      OFFSET 0.0 5.0 0.0";
    "    }";
    "  }";
    "  JOINT LeftUpLeg";
    "  {";
    "    OFFSET 8.0 0.0 0.0";
    "    CHANNELS 3 Zrotation Xrotation Yrotation";
    "    End Site";
    "    {";
    "      OFFSET 0.0 -40.0 0.0";
    "    }";
    "  }";
    "}" ].

(** The same block with the two End Site blocks taken out. *)
Definition sample_without_end_sites : list string :=
  [ "ROOT Hips";
    "{";
    "  OFFSET 0.0 90.0 0.0";
    "  CHANNELS 6 Xposition Yposition Zposition Zrotation Xrotation Yrotation";
    "  JOINT Spine";
    "  {";
    "    OFFSET 0.0 10.0 0.0";
    "    CHANNELS 3 Zrotation Xrotation Yrotation";
    "  }";
    "  JOINT LeftUpLeg";
    "  {";
    "    OFFSET 8.0 0.0 0.0";
    "    CHANNELS 3 Zrotation Xrotation Yrotation";
    "  }";
    "}" ].

(** ** Vocabulary of the further properties *)


(** The number of joints open after the lines. *)
Definition depth_of (lines : list string) : nat :=
  foldl depth_after O (classify <$> lines).

(** Every character of the string is in the class. *)
Fixpoint all_chars (p : ascii -> bool) (s : string) : bool :=
  match s with
  | EmptyString => true
  | String c t => p c && all_chars p t
  end.

(** A value that is zero, infinite, or finite with a positive mantissa. *)
Definition positive_mantissa (x : Float.float) : Prop :=
  match Float.mag x with
  | Float.Finite m _ => 0 < m
  | _ => True
  end.

(** A line that opens the hierarchy block, and one that opens the motion
    block, as [read_bvh_header] tests them. *)
Definition hierarchy_mark (ln : string) : bool := startswith "HIERARCHY" (strip ln).
Definition motion_mark (ln : string) : bool := startswith "MOTION" (strip ln).

(** A line that opens neither block. *)
Definition plain (ln : string) : Prop :=
  hierarchy_mark ln = false /\ motion_mark ln = false.

(** The children of a name, as [children.get(name, [])] reads them. *)
Definition children_of (ch : gmap string (list string)) (x : string) : list string :=
  default [] (ch !! x).

(** [traverses ch x l]: the depth-first walk of [print_tree] from [x]
    ends and visits the names [l], in this order. *)
Inductive traverses (ch : gmap string (list string)) : string -> list string -> Prop :=
| traverses_node x ls :
    traverses_all ch (children_of ch x) ls -> traverses ch x (x :: ls)
with traverses_all (ch : gmap string (list string)) :
    list string -> list string -> Prop :=
| traverses_nil : traverses_all ch [] []
| traverses_cons c cs l ls :
    traverses ch c l -> traverses_all ch cs ls ->
    traverses_all ch (c :: cs) (l ++ ls).

Scheme traverses_mut := Induction for traverses Sort Prop
  with traverses_all_mut := Induction for traverses_all Sort Prop.

(** Each name of the stack is the last child of the one below it, and the
    lowest is the last of [tops]. *)
Fixpoint chained (ch : gmap string (list string)) (tops stack : list string) : Prop :=
  match stack with
  | [] => True
  | x :: below =>
      match below with
      | [] => last tops = Some x
      | p :: _ => last (children_of ch p) = Some x
      end /\ chained ch tops below
  end.

(** The walk from [x] grows by the new child [n] of [cur], which it
    meets. *)
Definition grows (ch : gmap string (list string)) (cur n x : string) : Prop :=
  forall l, traverses ch x l -> NoDup l ->
    traverses (append_child cur n ch) x (l ++ [n]) /\ cur ∈ l.

(** What the loop keeps true of the walk: the order list is the walk of
    the names declared with no joint open, one after the other. *)
Record walked (tops : list string) (st : pstate) : Prop := Walked {
  walked_order : traverses_all (children st) tops (order st);
  walked_chain : chained (children st) tops (stack st);
  walked_stack : NoDup (stack st)
}.

(** * Properties of the parser *)

Section Parser.

Implicit Types (st : pstate) (ln : string) (lines : list string).

Lemma bind_Ok {A B} (m : result A) (f : A -> result B) (b : B) :
  m ≫= f = Ok b <-> exists a, m = Ok a /\ f a = Ok b.
Proof.
  destruct m as [a|e]; simpl; split.
  - intros H. exists a. auto.
  - intros (a' & [= <-] & H). exact H.
  - intros [=].
  - intros (a' & [=] & _).
Qed.

Lemma step_classify st ln : step st ln = step_kind st (classify ln).
Proof.
  unfold step, classify, record_offset.
  destruct (re_joint ln) as [[typ name]|]; [reflexivity|].
  destruct (re_end ln); [reflexivity|].
  destruct (contains "{" ln); [reflexivity|].
  destruct (contains "}" ln); [reflexivity|].
  destruct (re_offset ln) as [[[gx gy] gz]|]; reflexivity.
Qed.

Lemma run_app st l1 l2 :
  run st (l1 ++ l2) = st' ← run st l1; run st' l2.
Proof.
  revert st. induction l1 as [|ln l1 IH]; intros st; simpl; [reflexivity|].
  destruct (step st ln) as [st'|e]; simpl; [apply IH | reflexivity].
Qed.

Lemma declared_app l1 l2 : declared (l1 ++ l2) = declared l1 ++ declared l2.
Proof. apply omap_app. Qed.

Lemma declared_cons ln lines :
  declared (ln :: lines) =
  match classify ln with KJoint n => n :: declared lines | _ => declared lines end.
Proof. unfold declared. simpl. destruct (classify ln); reflexivity. Qed.

(** A step changes [order] only by a declaration, which it appends. *)
Lemma step_order st ln st' :
  step st ln = Ok st' -> order st' = order st ++ declared [ln].
Proof.
  rewrite step_classify, declared_cons. unfold declared; simpl.
  destruct (classify ln); simpl; intros H.
  - injection H as <-. reflexivity.
  - injection H as <-. symmetry. apply app_nil_r.
  - injection H as <-. symmetry. apply app_nil_r.
  - injection H as <-. rewrite app_nil_r. unfold close_brace.
    destruct (stack st); reflexivity.
  - rewrite app_nil_r. destruct (current st); [|congruence].
    destruct (truthy _); [|congruence].
    destruct (Float.of_str gx); simpl in H; [|discriminate].
    destruct (Float.of_str gy); simpl in H; [|discriminate].
    destruct (Float.of_str gz); simpl in H; [|discriminate].
    injection H as <-. reflexivity.
  - injection H as <-. symmetry. apply app_nil_r.
Qed.

Lemma run_order lines : forall st st',
  run st lines = Ok st' -> order st' = order st ++ declared lines.
Proof.
  induction lines as [|ln lines IH]; intros st st' H; simpl in H.
  - injection H as <-. symmetry. apply app_nil_r.
  - apply bind_Ok in H as (st1 & H1 & H2).
    rewrite (IH _ _ H2), (step_order _ _ _ H1).
    change (ln :: lines) with ([ln] ++ lines).
    rewrite declared_app, app_assoc. reflexivity.
Qed.

(** The order list has one entry per [ROOT] or [JOINT] line. *)
Lemma parse_order lines root ch offs ord :
  parse_hierarchy lines = Ok (root, ch, offs, ord) -> ord = declared lines.
Proof.
  unfold parse_hierarchy. intros H.
  apply bind_Ok in H as (st & H1 & [= <- <- <- <-]).
  apply run_order in H1. exact H1.
Qed.


Lemma step_kind_spec st k st' : step_kind st k = Ok st' -> step_spec st k st'.
Proof.
  destruct k; simpl; intros H; try (injection H as <-; constructor).
  destruct (current st) as [cur|] eqn:Hc.
  - destruct (truthy (Some cur)) eqn:Ht.
    + apply bind_Ok in H as (x & Hx & H).
      apply bind_Ok in H as (y & Hy & H).
      apply bind_Ok in H as (z & Hz & H).
      injection H as <-.
      assert (Ht' : truthy (current st) = true) by congruence.
      pose proof (step_offset st gx gy gz cur x y z Hc Ht' Hx Hy Hz) as S.
      unfold with_offsets in S. rewrite Hc in S. exact S.
    + injection H as <-. apply step_offset_skip. congruence.
  - injection H as <-. apply step_offset_skip. rewrite Hc. reflexivity.
Qed.

Lemma step_spec_of st ln st' : step st ln = Ok st' -> step_spec st (classify ln) st'.
Proof. rewrite step_classify. apply step_kind_spec. Qed.

(** *** The loop invariant *)

Lemma is_child_append ch cur n p c :
  is_child (append_child cur n ch) p c <-> is_child ch p c \/ (p = cur /\ c = n).
Proof.
  unfold is_child, append_child.
  destruct (decide (p = cur)) as [->|Hne].
  - rewrite lookup_insert_eq. simpl. rewrite elem_of_app, list_elem_of_singleton.
    naive_solver.
  - rewrite lookup_insert_ne by congruence. naive_solver.
Qed.

Lemma before_app l l' p c : before l p c -> before (l ++ l') p c.
Proof.
  intros (i & j & Hi & Hj & Hij). exists i, j.
  split; [|split]; [apply lookup_app_l_Some; exact Hi | apply lookup_app_l_Some; exact Hj | exact Hij].
Qed.

Lemma before_snoc l p n : p ∈ l -> before (l ++ [n]) p n.
Proof.
  intros Hp. apply list_elem_of_lookup in Hp as [i Hi].
  exists i, (length l). split; [|split].
  - apply lookup_app_l_Some. exact Hi.
  - rewrite lookup_app_r by lia. rewrite Nat.sub_diag. reflexivity.
  - eapply lookup_lt_Some. exact Hi.
Qed.

Lemma before_in_r l p c : before l p c -> c ∈ l.
Proof. intros (i & j & _ & Hj & _). eapply list_elem_of_lookup_2. exact Hj. Qed.

Lemma before_in_l l p c : before l p c -> p ∈ l.
Proof. intros (i & j & Hi & _ & _). eapply list_elem_of_lookup_2. exact Hi. Qed.

Lemma before_trans l a b c : NoDup l -> before l a b -> before l b c -> before l a c.
Proof.
  intros Hnd (i & j & Hi & Hj & Hij) (j' & k & Hj' & Hk & Hjk).
  assert (j = j') as <- by (eapply NoDup_lookup; eassumption).
  exists i, k. split; [exact Hi|]. split; [exact Hk|lia].
Qed.

Lemma before_irrefl l a : NoDup l -> ~ before l a a.
Proof.
  intros Hnd (i & j & Hi & Hj & Hij).
  assert (i = j) by (eapply NoDup_lookup; eassumption). lia.
Qed.

Lemma good_init : good [] pstate_init.
Proof.
  split; simpl; try reflexivity.
  - intros n Hn. exact Hn.
  - intros n Hn. exact Hn.
  - intros p c Hc. unfold is_child in Hc. rewrite lookup_empty in Hc.
    simpl in Hc. apply elem_of_nil in Hc. contradiction.
  - intros c Hc. apply elem_of_nil in Hc. contradiction.
  - intros _. split; [|split].
    + intros p q c Hc. unfold is_child in Hc. rewrite lookup_empty in Hc.
      simpl in Hc. apply elem_of_nil in Hc. contradiction.
    + intros p c Hc. apply elem_of_nil in Hc. contradiction.
    + intros p. rewrite lookup_empty. simpl. constructor.
Qed.

(** A step that leaves [children], [order] and [root_name] alone and
    shortens the stack keeps the invariant. *)
Lemma good_same_tree tops st st' :
  good tops st ->
  children st' = children st -> order st' = order st ->
  root_name st' = root_name st ->
  current st' = head (stack st') ->
  (forall n, n ∈ stack st' -> n ∈ stack st) ->
  good tops st'.
Proof.
  intros [G1 G2 G3 G4 G5 G6 G7] Hch Hord Hroot Hcur Hst.
  split; rewrite ?Hch, ?Hord, ?Hroot; auto.
Qed.

Lemma good_declare tops st name :
  good tops st ->
  good (tops ++ tops_of (length (stack st)) (KJoint name)) (declare name st).
Proof.
  intros [G1 G2 G3 G4 G5 G6 G7].
  assert (Hedge : forall p c,
    is_child (children (declare name st)) p c ->
    is_child (children st) p c \/ (current st = Some p /\ c = name)).
  { intros p c. unfold declare; simpl. destruct (current st) as [cur|].
    - rewrite is_child_append. naive_solver.
    - auto. }
  assert (Hedge' : forall p c,
    is_child (children st) p c -> is_child (children (declare name st)) p c).
  { intros p c. unfold declare; simpl. destruct (current st) as [cur|].
    - rewrite is_child_append. auto.
    - auto. }
  assert (Hcur : forall p, current st = Some p -> p ∈ order st).
  { intros p Hp. apply G2. rewrite G1 in Hp.
    destruct (stack st) as [|x rest]; simpl in Hp; [discriminate|].
    injection Hp as ->. left. }
  assert (Htops : forall n,
    n ∈ tops ++ tops_of (length (stack st)) (KJoint name) ->
    n ∈ tops \/ (n = name /\ current st = None)).
  { intros n. rewrite elem_of_app. intros [H|H]; [auto|].
    rewrite G1. destruct (stack st); simpl in *.
    - apply list_elem_of_singleton in H. auto.
    - apply elem_of_nil in H. contradiction. }
  split.
  - reflexivity.
  - simpl. intros n. rewrite elem_of_cons, elem_of_app, list_elem_of_singleton.
    intros [->|H]; auto.
  - simpl. intros n Hn. rewrite elem_of_app, list_elem_of_singleton.
    apply Htops in Hn as [H|[-> _]]; auto.
  - intros p c Hc. simpl. apply Hedge in Hc as [Hc|[Hp ->]].
    + apply before_app. auto.
    + apply before_snoc. auto.
  - simpl. intros c. rewrite elem_of_app, list_elem_of_singleton. intros [Hc| ->].
    + destruct (G5 c Hc) as [H|[p Hp]].
      * left. apply elem_of_app. auto.
      * right. exists p. auto.
    + destruct (current st) as [cur|] eqn:Hcs.
      * right. exists cur. unfold declare; simpl.
        apply is_child_append. auto.
      * left. apply elem_of_app. right.
        destruct (stack st); simpl in *; [left|discriminate].
  - unfold declare; simpl. rewrite G1 in *.
    destruct (stack st) as [|x rest]; simpl.
    + symmetry. apply last_snoc.
    + rewrite app_nil_r. exact G6.
  - simpl. intros Hnd. apply NoDup_app in Hnd as (Hnd & Hfresh & _).
    assert (Hnew : name ∉ order st).
    { intros Hin. apply (Hfresh _ Hin). left. }
    destruct (G7 Hnd) as (U1 & U2 & U3).
    assert (Hold : forall p, ~ is_child (children st) p name).
    { intros p Hp. apply Hnew. eapply before_in_r. apply G4. exact Hp. }
    split; [|split].
    + intros p q c Hp Hq.
      apply Hedge in Hp as [Hp|[Hp ->]]; apply Hedge in Hq as [Hq|[Hq Hc]].
      * eapply U1; eassumption.
      * subst c. exfalso. eapply Hold. exact Hp.
      * exfalso. eapply Hold. exact Hq.
      * congruence.
    + intros p c Hc Hp. apply Htops in Hc as [Hc|[-> Hnone]].
      * apply Hedge in Hp as [Hp|[_ ->]].
        -- eapply U2; eassumption.
        -- apply Hnew. auto.
      * apply Hedge in Hp as [Hp|[Hp _]].
        -- eapply Hold. exact Hp.
        -- congruence.
    + intros p. destruct (current st) as [cur|] eqn:Hcs; [|apply U3].
      unfold append_child. destruct (decide (p = cur)) as [->|Hne].
      * rewrite lookup_insert_eq. simpl. apply NoDup_app. split; [apply U3|].
        split; [|apply NoDup_singleton].
        intros x Hx Hx'. apply list_elem_of_singleton in Hx'. subst x.
        eapply Hold. exact Hx.
      * rewrite lookup_insert_ne by congruence. apply U3.
Qed.

Lemma good_step tops st k st' :
  good tops st -> step_spec st k st' ->
  good (tops ++ tops_of (length (stack st)) k) st' /\
  length (stack st') = depth_after (length (stack st)) k.
Proof.
  intros G S. destruct S.
  - split; [apply good_declare; exact G | reflexivity].
  - simpl. rewrite app_nil_r. auto.
  - simpl. rewrite app_nil_r. auto.
  - simpl. rewrite app_nil_r. auto.
  - simpl. rewrite app_nil_r. unfold close_brace.
    destruct (stack st) as [|x rest] eqn:Hs.
    + rewrite Hs. auto.
    + split; [|reflexivity].
      apply (good_same_tree tops st); try reflexivity; [exact G|].
      simpl. intros n Hn. rewrite Hs. right. exact Hn.
  - simpl. rewrite app_nil_r. auto.
  - simpl. rewrite app_nil_r. split; [|reflexivity].
    apply (good_same_tree tops st); try reflexivity; [exact G| |auto].
    simpl. apply (good_current _ _ G).
Qed.

Lemma good_run lines : forall tops st st',
  good tops st -> run st lines = Ok st' ->
  good (tops ++ toplevel (length (stack st)) (classify <$> lines)) st'.
Proof.
  induction lines as [|ln lines IH]; intros tops st st' G H; simpl in H.
  - injection H as <-. simpl. rewrite app_nil_r. exact G.
  - apply bind_Ok in H as (st1 & H1 & H2).
    apply step_spec_of in H1.
    destruct (good_step _ _ _ _ G H1) as [G1 Hlen].
    specialize (IH _ _ _ G1 H2).
    rewrite Hlen in IH. rewrite fmap_cons. simpl. rewrite app_assoc. exact IH.
Qed.

Lemma good_parse lines root ch offs ord :
  parse_hierarchy lines = Ok (root, ch, offs, ord) ->
  exists st,
    run pstate_init lines = Ok st /\
    good (toplevel 0 (classify <$> lines)) st /\
    root = root_name st /\ ch = children st /\ offs = offsets st /\
    ord = order st.
Proof.
  unfold parse_hierarchy. intros H.
  apply bind_Ok in H as (st & H1 & [= <- <- <- <-]).
  exists st. split; [exact H1|]. split; [|auto].
  apply (good_run lines [] pstate_init st good_init H1).
Qed.

(** Under distinct names an ancestor is declared before its descendant. *)
Lemma ancestor_before tops st a n :
  good tops st -> NoDup (order st) ->
  ancestor (children st) a n -> before (order st) a n.
Proof.
  intros G Hnd H. induction H as [x y H|x y z H _ IH].
  - apply (good_edge _ _ G). exact H.
  - eapply before_trans; [exact Hnd| |exact IH].
    apply (good_edge _ _ G). exact H.
Qed.

(** With a single name declared while no joint is open, every other name
    descends from it. *)
Lemma reach_from_single_top st r :
  good [r] st -> NoDup (order st) ->
  forall (k : nat) n, order st !! k = Some n -> n <> r -> ancestor (children st) r n.
Proof.
  intros G Hnd k. induction k as [k IH] using lt_wf_ind. intros n Hk Hne.
  destruct (good_cover _ _ G n) as [Htop|[p Hp]].
  - eapply list_elem_of_lookup_2. exact Hk.
  - apply list_elem_of_singleton in Htop. contradiction.
  - destruct (good_edge _ _ G _ _ Hp) as (i & j & Hi & Hj & Hij).
    assert (j = k) as -> by (eapply NoDup_lookup; eassumption).
    destruct (decide (p = r)) as [->|Hpr].
    + apply tc_once. exact Hp.
    + eapply tc_r; [|exact Hp]. apply (IH i Hij p Hi Hpr).
Qed.

(** *** When the parser returns *)




(** *** Where an offset is recorded *)



(** The pattern of a declaration captures at least one character. *)
Lemma classify_joint_name ln name : classify ln = KJoint name -> is_empty name = false.
Proof.
  unfold classify, re_joint. intros H.
  destruct (root_or_joint (drop_while is_space ln)) as [[typ r]|]; simpl in H.
  - destruct (spaces1 r) as [r'|]; simpl in H.
    + unfold run1 in H.
      destruct (is_empty (take_while name_char r')) eqn:He; simpl in H.
      * destruct (re_end ln), (contains "{" ln), (contains "}" ln),
          (re_offset ln) as [[[? ?] ?]|]; discriminate.
      * injection H as <-. exact He.
    + destruct (re_end ln), (contains "{" ln), (contains "}" ln),
        (re_offset ln) as [[[? ?] ?]|]; discriminate.
  - destruct (re_end ln), (contains "{" ln), (contains "}" ln),
      (re_offset ln) as [[[? ?] ?]|]; discriminate.
Qed.





(** With no joint open, a line that declares nothing leaves the state as
    it is. *)
Lemma step_idle st ln :
  re_joint ln = None -> current st = None -> stack st = [] -> step st ln = Ok st.
Proof.
  intros Hj Hc Hs. unfold step, record_offset, close_brace.
  rewrite Hj, Hc, Hs.
  destruct (re_end ln), (contains "{" ln), (contains "}" ln); try reflexivity.
  destruct (re_offset ln) as [[[gx gy] gz]|]; reflexivity.
Qed.

(** *** When the parser raises *)

Lemma of_str_raise g e :
  Float.of_str g = Raise e <-> e = ValueError /\ Float.decimal g = None.
Proof.
  unfold Float.of_str.
  destruct (Float.decimal g) as [[[neg m] ex]|]; split.
  - discriminate.
  - intros [_ [=]].
  - intros [= <-]. auto.
  - intros [-> _]. reflexivity.
Qed.

Lemma numeric_dec g : numeric g \/ ~ numeric g.
Proof.
  unfold numeric. destruct (Float.decimal g); [left; discriminate|right; tauto].
Qed.

Lemma fields_numeric_dec ln : fields_numeric ln \/ ~ fields_numeric ln.
Proof.
  unfold fields_numeric. destruct (classify ln); try (left; exact I).
  destruct (numeric_dec gx), (numeric_dec gy), (numeric_dec gz); tauto.
Qed.

Lemma tidy_init : tidy pstate_init.
Proof. split; [reflexivity|constructor]. Qed.

(** In a tidy state, [current] is true exactly when the stack is not empty. *)
Lemma tidy_truthy st : tidy st -> truthy (current st) = true <-> stack st <> [].
Proof.
  intros [Hc Hs]. rewrite Hc. destruct (stack st) as [|n rest]; simpl.
  - split; [discriminate|congruence].
  - apply Forall_cons in Hs as [Hn _]. rewrite Hn. split; [discriminate|reflexivity].
Qed.

Lemma step_tidy st ln st' :
  tidy st -> step st ln = Ok st' ->
  tidy st' /\ length (stack st') = depth_after (length (stack st)) (classify ln).
Proof.
  intros [Hc Hs] H. pose proof (classify_joint_name ln) as Hname.
  rewrite step_classify in H.
  destruct (classify ln); simpl in H |- *.
  - injection H as <-. simpl. split; [|reflexivity].
    split; [reflexivity|]. apply Forall_cons. split; [apply Hname; reflexivity|exact Hs].
  - injection H as <-. split; [split; [simpl; congruence|exact Hs]|reflexivity].
  - injection H as <-. split; [split; [simpl; congruence|exact Hs]|reflexivity].
  - injection H as <-. unfold close_brace.
    destruct (stack st) as [|top rest] eqn:E.
    + unfold tidy. rewrite ?E. simpl. rewrite ?E.
      split; [split; [exact Hc|constructor]|reflexivity].
    + simpl. apply Forall_cons in Hs as [_ Hs].
      split; [split; [reflexivity|exact Hs]|reflexivity].
  - destruct (current st) as [cur|] eqn:Ecur.
    + destruct (truthy (Some cur)).
      * apply bind_Ok in H as (x & _ & H).
        apply bind_Ok in H as (y & _ & H).
        apply bind_Ok in H as (z & _ & H).
        injection H as <-. simpl. split; [split; [simpl; congruence|exact Hs]|reflexivity].
      * injection H as <-. split; [split; [simpl; congruence|exact Hs]|reflexivity].
    + injection H as <-. split; [split; [simpl; congruence|exact Hs]|reflexivity].
  - injection H as <-. split; [split; [simpl; congruence|exact Hs]|reflexivity].
Qed.

(** The loop body raises exactly on a line whose fields it converts, with
    a joint open and a field that [float] rejects. *)
Lemma step_raise_iff st ln e :
  tidy st ->
  step st ln = Raise e <-> e = ValueError /\ stack st <> [] /\ ~ fields_numeric ln.
Proof.
  intros T. pose proof (tidy_truthy st T) as Ht. destruct T as [Hc Hs].
  rewrite step_classify. unfold fields_numeric.
  destruct (classify ln); simpl; try (split; [discriminate|tauto]).
  destruct (stack st) as [|top rest] eqn:E.
  - rewrite Hc. simpl. split; [discriminate|]. intros (_ & H & _). congruence.
  - assert (Htr : truthy (current st) = true) by (apply Ht; discriminate).
    rewrite Htr. rewrite Hc. simpl. unfold numeric, Float.of_str.
    destruct (Float.decimal gx) as [[[? ?] ?]|]; simpl;
      [|split; [intros [= <-]; repeat split; [discriminate|tauto]|intros [-> _]; reflexivity]].
    destruct (Float.decimal gy) as [[[? ?] ?]|]; simpl;
      [|split; [intros [= <-]; repeat split; [discriminate|tauto]|intros [-> _]; reflexivity]].
    destruct (Float.decimal gz) as [[[? ?] ?]|]; simpl;
      [|split; [intros [= <-]; repeat split; [discriminate|tauto]|intros [-> _]; reflexivity]].
    split; [discriminate|]. intros (_ & _ & H). exfalso. apply H.
    repeat split; discriminate.
Qed.

Lemma run_raise_iff lines : forall st e,
  tidy st ->
  run st lines = Raise e <->
  e = ValueError /\
  exists pre ln post, lines = pre ++ ln :: post /\
    foldl depth_after (length (stack st)) (classify <$> pre) <> 0%nat /\
    ~ fields_numeric ln.
Proof.
  induction lines as [|l lines IH]; intros st e T; simpl.
  - split; [discriminate|]. intros (_ & pre & ln & post & H & _).
    destruct pre; discriminate.
  - destruct (step st l) as [st1|e1] eqn:E; simpl.
    + destruct (step_tidy _ _ _ T E) as [T1 Hlen].
      rewrite (IH st1 e T1). rewrite Hlen.
      split; intros (He & pre & ln & post & Hsplit & Hd & Hn); (split; [exact He|]).
      * exists (l :: pre), ln, post. subst lines. split; [reflexivity|].
        split; [exact Hd|exact Hn].
      * destruct pre as [|l' pre]; simpl in Hsplit.
        -- injection Hsplit as <- <-. simpl in Hd.
           assert (R : step st l = Raise ValueError).
           { apply step_raise_iff; [exact T|]. split; [reflexivity|].
             split; [|exact Hn]. intros Es. rewrite Es in Hd. apply Hd. reflexivity. }
           congruence.
        -- injection Hsplit as <- ->. exists pre, ln, post.
           split; [reflexivity|]. split; [exact Hd|exact Hn].
    + apply (step_raise_iff _ _ _ T) in E as (-> & Hs & Hn).
      split.
      * intros [= <-]. split; [reflexivity|]. exists [], l, lines.
        split; [reflexivity|]. split; [|exact Hn]. simpl.
        destruct (stack st); [congruence|discriminate].
      * intros [-> _]. reflexivity.
Qed.

Lemma run_returns_iff lines st :
  tidy st ->
  returns (run st lines) <->
  forall pre ln post, lines = pre ++ ln :: post ->
    foldl depth_after (length (stack st)) (classify <$> pre) <> 0%nat ->
    fields_numeric ln.
Proof.
  intros T. split.
  - intros [st' R] pre ln post Hsplit Hd.
    destruct (fields_numeric_dec ln) as [H|H]; [exact H|].
    assert (R' : run st lines = Raise ValueError).
    { apply (run_raise_iff _ _ _ T). split; [reflexivity|].
      exists pre, ln, post. auto. }
    congruence.
  - intros H. destruct (run st lines) as [st'|e] eqn:R; [eexists; reflexivity|].
    apply (run_raise_iff _ _ _ T) in R as (_ & pre & ln & post & Hsplit & Hd & Hn).
    exfalso. apply Hn. eapply H; eassumption.
Qed.

(** The frame rate is that of the first line that matches. *)
Lemma parse_fps_first_match motion :
  parse_fps motion =
  match first_frame_time motion with
  | Some g => fps_of_match g
  | None => Ok None
  end.
Proof.
  unfold first_frame_time.
  induction motion as [|ln rest IH]; simpl; [reflexivity|].
  destruct (re_frame_time ln); [reflexivity|exact IH].
Qed.

Lemma fps_of_match_cases g :
  (returns (fps_of_match g) <-> duration_safe g) /\
  (fps_of_match g = Raise ValueError <-> Float.decimal g = None) /\
  (fps_of_match g = Raise OverflowError <->
     exists dt, Float.of_str g = Ok dt /\ Float.is_positive dt = true /\
       Float.mag (Float.one_over dt) = Float.Infinity).
Proof.
  unfold fps_of_match, duration_safe.
  destruct (Float.of_str g) as [dt|e] eqn:E; simpl.
  - assert (Hd : Float.decimal g <> None).
    { intros Hd. unfold Float.of_str in E. rewrite Hd in E. discriminate. }
    destruct (Float.is_positive dt) eqn:P.
    + unfold Float.round.
      destruct (Float.mag (Float.one_over dt)) eqn:M; simpl in M |- *.
      * split; [|split].
        -- split; [intros _; exists dt; split; [reflexivity|intros; congruence]|eexists; reflexivity].
        -- split; [discriminate|contradiction].
        -- split; [discriminate|]. intros (dt' & [= <-] & _ & M'). congruence.
      * split; [|split].
        -- split; [intros _; exists dt; split; [reflexivity|intros; congruence]|eexists; reflexivity].
        -- split; [discriminate|contradiction].
        -- split; [discriminate|]. intros (dt' & [= <-] & _ & M'). congruence.
      * split; [|split].
        -- split; [intros [? [=]]|].
           intros (dt' & [= <-] & H). exfalso. apply H; [exact P|exact M].
        -- split; [discriminate|contradiction].
        -- split; [|reflexivity]. intros _. exists dt. auto.
    + split; [|split].
      * split; [intros _; exists dt; split; [reflexivity|intros; congruence]|eexists; reflexivity].
      * split; [discriminate|contradiction].
      * split; [discriminate|]. intros (dt' & [= <-] & P' & _). congruence.
  - apply of_str_raise in E as [-> Hd].
    split; [|split].
    + split; [intros [? [=]]|intros (dt & [=] & _)].
    + split; [intros _; exact Hd|reflexivity].
    + split; [discriminate|]. intros (dt & [=] & _).
Qed.

Lemma read_bvh_header_fps text :
  (returns (read_bvh_header text) <-> returns (parse_fps (motion_block text))) /\
  (forall e, read_bvh_header text = Raise e <-> parse_fps (motion_block text) = Raise e).
Proof.
  unfold read_bvh_header, motion_block.
  destruct (parse_fps _) as [fps|e0]; simpl; split.
  - split; intros _; eexists; reflexivity.
  - intros e. split; discriminate.
  - split; intros [? [=]].
  - intros e. split; intros [= <-]; reflexivity.
Qed.



(** C1: a well-formed block in which a joint follows an End Site block.
    The order list has its three names, but the root returned is the
    last of them and the traversal from it reaches that name alone. *)
Theorem C1_preorder_lost_after_end_site :
  well_formed sample /\
  (fun h => (h.1.1.1, h.1.1.2, h.2)) <$> parse_hierarchy sample =
    Ok (Some "LeftUpLeg", {[ "Hips" := ["Spine"] ]}, ["Hips"; "Spine"; "LeftUpLeg"]) /\
  forall fuel,
    (print_tree fuel (Some "LeftUpLeg") {[ "Hips" := ["Spine"] ]} 0).*2 <>
    [Some "Hips"; Some "Spine"; Some "LeftUpLeg"].
Proof.
  split; [|split].
  - split; [vm_compute; reflexivity|].
    apply (bool_decide_unpack _). vm_compute. exact I.
  - vm_compute. reflexivity.
  - intros [|fuel]; [discriminate|].
    simpl. rewrite lookup_singleton_ne by discriminate. discriminate.
Qed.

(** C2, as stated: with a name declared twice, a joint is its own child. *)
Lemma C2_duplicate_name_is_own_ancestor :
  parse_hierarchy ["ROOT A"; "{"; "JOINT A"; "{"; "}"; "}"] =
    Ok (Some "A", {[ "A" := ["A"] ]}, ∅, ["A"; "A"]) /\
  ancestor {[ "A" := ["A"] ]} "A" "A".
Proof.
  split; [vm_compute; reflexivity|].
  apply tc_once. unfold is_child. rewrite lookup_singleton_eq. simpl. left.
Qed.

(** C2, amended: for a header whose declared names are pairwise distinct,
    no name is among its own ancestors, and every name has at most one
    parent and is listed once by it.  When the header has no End Site
    line besides, a name has a parent exactly when it was declared while
    a joint was open, and the root returned is the last name declared
    while none was; when a single name was so declared, every other name
    of the order descends from it and is the child of exactly one
    parent. *)
Theorem C2_forest_of_distinct_names lines root ch offs ord :
  parse_hierarchy lines = Ok (root, ch, offs, ord) ->
  NoDup (declared lines) ->
  (forall n, ~ ancestor ch n n) /\
  (forall p q c, is_child ch p c -> is_child ch q c -> p = q) /\
  (forall p, NoDup (default [] (ch !! p))) /\
  (Forall (fun ln => classify ln <> KEnd) lines ->
   root = last (toplevel 0 (classify <$> lines)) /\
   (forall c, c ∈ ord ->
      (exists p, is_child ch p c) <-> c ∉ toplevel 0 (classify <$> lines)) /\
   (forall r, toplevel 0 (classify <$> lines) = [r] ->
      root = Some r /\
      forall n, n ∈ ord -> n <> r ->
        ancestor ch r n /\
        exists p, is_child ch p n /\ forall q, is_child ch q n -> q = p)).
Proof.
  intros H Hnd.
  pose proof (parse_order _ _ _ _ _ H) as Hord.
  apply good_parse in H as (st & _ & G & -> & -> & -> & ->).
  rewrite <- Hord in Hnd.
  destruct (good_unique _ _ G Hnd) as (U1 & U2 & U3).
  assert (Hcover : forall c, c ∈ order st ->
    (exists p, is_child (children st) p c) <-> c ∉ toplevel 0 (classify <$> lines)).
  { intros c Hc. split.
    - intros [p Hp] Htop. exact (U2 p c Htop Hp).
    - intros Htop. destruct (good_cover _ _ G c Hc) as [?|?]; [contradiction|assumption]. }
  split.
  { intros n Hn. apply (before_irrefl (order st) n Hnd).
    eapply ancestor_before; eassumption. }
  split; [exact U1|]. split; [exact U3|]. intros _.
  split; [apply (good_root _ _ G)|]. split; [exact Hcover|].
  intros r Hr. rewrite Hr in *. split; [apply (good_root _ _ G)|].
  intros n Hn Hne.
  split.
  - apply list_elem_of_lookup in Hn as [k Hk].
    eapply reach_from_single_top; eassumption.
  - destruct (proj2 (Hcover n Hn)) as [p Hp].
    + rewrite list_elem_of_singleton. exact Hne.
    + exists p. split; [exact Hp|]. intros q Hq. eapply U1; eassumption.
Qed.

Lemma C2_forest_witness :
  parse_hierarchy ["ROOT Hips"; "{"; "JOINT Spine"; "{"; "}"; "JOINT LeftUpLeg"; "{"; "}"; "}"] =
    Ok (Some "Hips", {[ "Hips" := ["Spine"; "LeftUpLeg"] ]}, ∅,
        ["Hips"; "Spine"; "LeftUpLeg"]) /\
  (forall n, ~ ancestor {[ "Hips" := ["Spine"; "LeftUpLeg"] ]} n n) /\
  forall n, n ∈ ["Hips"; "Spine"; "LeftUpLeg"] -> n <> "Hips" ->
    ancestor {[ "Hips" := ["Spine"; "LeftUpLeg"] ]} "Hips" n.
Proof.
  assert (H : parse_hierarchy
      ["ROOT Hips"; "{"; "JOINT Spine"; "{"; "}"; "JOINT LeftUpLeg"; "{"; "}"; "}"] =
    Ok (Some "Hips", {[ "Hips" := ["Spine"; "LeftUpLeg"] ]}, ∅,
        ["Hips"; "Spine"; "LeftUpLeg"])) by (vm_compute; reflexivity).
  assert (Hnd : NoDup (declared
      ["ROOT Hips"; "{"; "JOINT Spine"; "{"; "}"; "JOINT LeftUpLeg"; "{"; "}"; "}"])).
  { apply (bool_decide_unpack _). vm_compute. exact I. }
  assert (Hne : Forall (fun ln => classify ln <> KEnd)
      ["ROOT Hips"; "{"; "JOINT Spine"; "{"; "}"; "JOINT LeftUpLeg"; "{"; "}"; "}"]).
  { repeat (apply Forall_cons; split; [vm_compute; discriminate|]). constructor. }
  assert (Htop : toplevel 0 (classify <$>
      ["ROOT Hips"; "{"; "JOINT Spine"; "{"; "}"; "JOINT LeftUpLeg"; "{"; "}"; "}"]) =
      ["Hips"]) by (vm_compute; reflexivity).
  destruct (C2_forest_of_distinct_names _ _ _ _ _ H Hnd) as (Hacyc & _ & _ & Hrest).
  destruct (Hrest Hne) as (_ & _ & Hsingle).
  destruct (Hsingle "Hips" Htop) as [_ Hreach].
  split; [exact H|]. split; [exact Hacyc|].
  intros n Hn Hr. exact (proj1 (Hreach n Hn Hr)).
Defined.

(** C3: the End Site block of [Spine] takes [Spine] off the stack, and the
    closing brace of [Spine] then takes [Hips] off: [LeftUpLeg], a child
    of [Hips] when the End Site blocks are left out, is attached to no
    parent and becomes the root. *)
Theorem C3_end_site_block_pops_the_stack :
  (fun st => (stack st, current st)) <$> run pstate_init (take 8 sample) =
    Ok (["Spine"; "Hips"], Some "Spine") /\
  classify <$> take 4 (drop 8 sample) = [KEnd; KOpen; KOffset "0.0" "5.0" "0.0"; KClose] /\
  (fun st => (stack st, current st)) <$> run pstate_init (take 12 sample) =
    Ok (["Hips"], Some "Hips") /\
  (fun h => (h.1.1.1, h.1.1.2)) <$> parse_hierarchy sample =
    Ok (Some "LeftUpLeg", {[ "Hips" := ["Spine"] ]}) /\
  (fun h => (h.1.1.1, h.1.1.2)) <$> parse_hierarchy sample_without_end_sites =
    Ok (Some "Hips", {[ "Hips" := ["Spine"; "LeftUpLeg"] ]}).
Proof. repeat split; vm_compute; reflexivity. Qed.

(** C4, as stated: a field that the pattern accepts and [float] does not
    raises [ValueError] out of the parser and out of the frame-time
    extraction, and a duration with an infinite reciprocal raises
    [OverflowError]. *)
Lemma C4_malformed_number_raises :
  re_offset "  OFFSET - 0.0 0.0" = Some ("-", "0.0", "0.0") /\
  parse_hierarchy ["ROOT Hips"; "{"; "  OFFSET - 0.0 0.0"; "}"] = Raise ValueError /\
  read_bvh_header (text_of ["HIERARCHY"; "MOTION"; "Frame Time: e"]) =
    Raise ValueError /\
  read_bvh_header (text_of ["HIERARCHY"; "MOTION"; "Frame Time: 1e-310"]) =
    Raise OverflowError.
Proof. repeat split; vm_compute; reflexivity. Qed.

(** C4, amended: [read_bvh_header] returns exactly when the value captured
    on the first line of the motion block that matches the frame-time
    pattern, if there is one, is accepted by [float] and has a finite
    reciprocal when it is positive; it raises [ValueError] exactly when
    [float] rejects that value and [OverflowError] exactly when the value
    is positive with an infinite reciprocal.  [parse_hierarchy] returns
    exactly when [float] accepts the fields of every line that reaches
    the OFFSET test and passes it while a joint is open; it raises
    exactly when there is such a line with a rejected field, and what it
    raises is [ValueError]. *)
Theorem C4_raises_exactly_on_rejected_field text lines :
  (returns (read_bvh_header text) <->
     forall g, first_frame_time (motion_block text) = Some g -> duration_safe g) /\
  (read_bvh_header text = Raise ValueError <->
     exists g, first_frame_time (motion_block text) = Some g /\
       Float.decimal g = None) /\
  (read_bvh_header text = Raise OverflowError <->
     exists g dt, first_frame_time (motion_block text) = Some g /\
       Float.of_str g = Ok dt /\ Float.is_positive dt = true /\
       Float.mag (Float.one_over dt) = Float.Infinity) /\
  (returns (parse_hierarchy lines) <->
     forall pre ln post, lines = pre ++ ln :: post ->
       depth_of pre <> 0%nat -> fields_numeric ln) /\
  (forall e, parse_hierarchy lines = Raise e <->
     e = ValueError /\
     exists pre ln post, lines = pre ++ ln :: post /\
       depth_of pre <> 0%nat /\ ~ fields_numeric ln).
Proof.
  destruct (read_bvh_header_fps text) as [Hret Hraise].
  rewrite Hret, !Hraise, parse_fps_first_match.
  split; [|split; [|split; [|split]]].
  - destruct (first_frame_time (motion_block text)) as [g|].
    + rewrite (proj1 (fps_of_match_cases g)). split.
      * intros H g' [= <-]. exact H.
      * intros H. apply H. reflexivity.
    + split; [intros _ g [=]|intros _; eexists; reflexivity].
  - destruct (first_frame_time (motion_block text)) as [g|].
    + rewrite (proj1 (proj2 (fps_of_match_cases g))). split.
      * intros H. exists g. auto.
      * intros (g' & [= <-] & H). exact H.
    + split; [discriminate|intros (g & [=] & _)].
  - destruct (first_frame_time (motion_block text)) as [g|].
    + rewrite (proj2 (proj2 (fps_of_match_cases g))). split.
      * intros (dt & H). exists g, dt. auto.
      * intros (g' & dt & [= <-] & H). exists dt. exact H.
    + split; [discriminate|intros (g & dt & [=] & _)].
  - unfold parse_hierarchy, depth_of.
    rewrite <- (run_returns_iff lines pstate_init tidy_init).
    destruct (run pstate_init lines) as [st|e]; simpl.
    + split; intros _; eexists; reflexivity.
    + split; intros [? [=]].
  - intros e. unfold parse_hierarchy, depth_of.
    rewrite <- (run_raise_iff lines pstate_init e tidy_init).
    destruct (run pstate_init lines) as [st|e0]; simpl.
    + split; discriminate.
    + split; intros [= <-]; reflexivity.
Qed.

(** C5, as stated: a header with a [JOINT] line and no [ROOT] line has a
    root and a joint. *)
Lemma C5_joint_without_root :
  Forall (fun ln => forall name, re_joint ln <> Some ("ROOT", name)) ["JOINT Spine"] /\
  parse_hierarchy ["JOINT Spine"] = Ok (Some "Spine", ∅, ∅, ["Spine"]).
Proof.
  split; [|vm_compute; reflexivity].
  repeat constructor. intros name. vm_compute. discriminate.
Qed.

(** C5, amended: when no line of the header matches the declaration
    pattern, whether as [ROOT] or as [JOINT], the result is empty and
    nothing is raised. *)
Theorem C5_no_declaration_empty_result lines :
  Forall (fun ln => re_joint ln = None) lines ->
  parse_hierarchy lines = Ok (None, ∅, ∅, []).
Proof.
  intros H. unfold parse_hierarchy.
  assert (Hrun : run pstate_init lines = Ok pstate_init).
  { induction H as [|ln lines Hln _ IH]; simpl; [reflexivity|].
    rewrite step_idle by (assumption || reflexivity). exact IH. }
  rewrite Hrun. reflexivity.
Qed.

Lemma C5_no_declaration_witness :
  parse_hierarchy ["{"; "  OFFSET - 0 0"; "  End Site"; "}"] = Ok (None, ∅, ∅, []).
Proof.
  apply (C5_no_declaration_empty_result ["{"; "  OFFSET - 0 0"; "  End Site"; "}"]).
  repeat constructor.
Defined.




Lemma C4_raises_exactly_witness :
  returns (read_bvh_header (text_of
    ["Frame Time: -"; "HIERARCHY"; "ROOT Hips"; "{"; "  OFFSET 0.0 90.0 0.0"; "}";
     "MOTION"; "Frames: 1"; "Frame Time: 0.01"; "Frame Time: e"])) /\
  returns (parse_hierarchy
    ["OFFSET - - -"; "ROOT Hips"; "{"; "  OFFSET 0.0 90.0 0.0"; "  OFFSET e }"; "OFFSET e e e"]).
Proof.
  split.
  - apply (proj1 (C4_raises_exactly_on_rejected_field _ [])).
    intros g Hg. vm_compute in Hg. injection Hg as <-.
    exists (Float.Float false (Float.Finite 5764607523034235 (-59))).
    split; [vm_compute; reflexivity|]. intros _. vm_compute. discriminate.
  - apply (proj1 (proj2 (proj2 (proj2 (C4_raises_exactly_on_rejected_field "" _))))).
    intros pre ln post Hsplit Hd.
    repeat (destruct pre as [|? pre];
            [injection Hsplit as <- <-;
             first [ exfalso; apply Hd; vm_compute; reflexivity
                   | vm_compute; exact I
                   | vm_compute; repeat split; discriminate ]
            | injection Hsplit as <- Hsplit ]).
    destruct pre; discriminate.
Defined.

End Parser.

(** * Properties of the frame rate *)

Section FrameRate.

Implicit Types (ln g : string) (motion pre post : list string).

(** Lines without a frame-time match are passed over. *)
Lemma parse_fps_skip pre motion :
  Forall (fun ln => re_frame_time ln = None) pre ->
  parse_fps (pre ++ motion) = parse_fps motion.
Proof.
  induction 1 as [|ln pre Hln _ IH]; simpl; [reflexivity|].
  rewrite Hln. exact IH.
Qed.

Lemma parse_fps_first pre ln post g :
  Forall (fun ln => re_frame_time ln = None) pre ->
  re_frame_time ln = Some g ->
  parse_fps (pre ++ ln :: post) = fps_of_match g.
Proof.
  intros Hpre Hln. rewrite (parse_fps_skip pre _ Hpre). simpl.
  rewrite Hln. reflexivity.
Qed.

(** C6: the frame rate comes from the first line of the motion block that
    matches the frame-time pattern, whatever the lines after it are: with
    [dt] the duration read there, it is [round(1.0 / dt)] when [dt] is
    positive and absent otherwise; it is absent when no line matches.
    [0.0083333] gives 120 and [0.0333333] gives 30, and a frame-time line
    of the hierarchy block is not looked at. *)
Theorem C6_frame_rate_from_first_match :
  (forall pre ln post g dt,
     Forall (fun ln => re_frame_time ln = None) pre ->
     re_frame_time ln = Some g ->
     Float.of_str g = Ok dt ->
     parse_fps (pre ++ ln :: post) =
       if Float.is_positive dt
       then fps ← Float.round (Float.one_over dt); Ok (Some fps)
       else Ok None) /\
  (forall motion,
     Forall (fun ln => re_frame_time ln = None) motion ->
     parse_fps motion = Ok None) /\
  read_bvh_header (text_of
    ["HIERARCHY"; "ROOT Hips"; "{"; "  Frame Time: 0.5"; "}";
     "MOTION"; "Frames: 2"; "Frame Time: 0.0083333"; "Frame Time: 0.0333333"]) =
    Ok (["ROOT Hips"; "{"; "  Frame Time: 0.5"; "}"], Some 120) /\
  read_bvh_header (text_of
    ["HIERARCHY"; "ROOT Hips"; "{"; "}";
     "MOTION"; "Frames: 1"; "Frame Time: 0.0333333"; "0.0 0.0 0.0"]) =
    Ok (["ROOT Hips"; "{"; "}"], Some 30) /\
  read_bvh_header (text_of
    ["HIERARCHY"; "ROOT Hips"; "{"; "}"; "MOTION"; "Frames: 1"; "0.0 0.0 0.0"]) =
    Ok (["ROOT Hips"; "{"; "}"], None) /\
  read_bvh_header (text_of
    ["HIERARCHY"; "ROOT Hips"; "{"; "}"; "MOTION"; "Frame Time: -0.5";
     "Frame Time: 0.5"]) =
    Ok (["ROOT Hips"; "{"; "}"], None).
Proof.
  split; [|split].
  - intros pre ln post g dt Hpre Hln Hdt.
    rewrite (parse_fps_first pre ln post g Hpre Hln).
    unfold fps_of_match. rewrite Hdt. reflexivity.
  - intros motion H. rewrite <- (app_nil_r motion).
    rewrite (parse_fps_skip motion [] H). reflexivity.
  - repeat split; vm_compute; reflexivity.
Qed.

Lemma C6_frame_rate_witness :
  parse_fps ["MOTION"; "Frames: 2"; "Frame Time: 0.0333333"; "Frame Time: 0.5"] =
    Ok (Some 30).
Proof.
  refine (eq_trans
    (proj1 C6_frame_rate_from_first_match
       ["MOTION"; "Frames: 2"] "Frame Time: 0.0333333" ["Frame Time: 0.5"]
       "0.0333333"
       (Float.Float false (Float.Finite 4803834798688927 (-57))) _ _ _) _).
  - repeat constructor.
  - vm_compute. reflexivity.
  - vm_compute. reflexivity.
  - vm_compute. reflexivity.
Defined.

End FrameRate.

(** * Properties of the name mapper *)

Section Mapper.

Implicit Types (m : gmap string string) (order : list string) (k v n : string).

Lemma suggest_map_stages order :
  suggest_map order = toe_pass order (after_clavicle order).
Proof. reflexivity. Qed.

(** *** The fixed tables *)

Lemma canonical_facts :
  Forall (fun k =>
    clavicle_named k = false /\
    (is_left k && toe_hinted k = true -> k = "LeftToe") /\
    (is_right k && toe_hinted k = true -> k = "RightToe"))
  CANONICAL_GMR_SET.
Proof. apply (bool_decide_unpack _). vm_compute. exact I. Qed.

Lemma variant_facts :
  Forall (fun p =>
    clavicle_named p.1 = false /\
    in_list p.1 CANONICAL_GMR_SET = false /\
    in_list p.2 CANONICAL_GMR_SET = true /\
    p.2 <> "LeftShoulder" /\ p.2 <> "RightShoulder" /\
    (is_left p.1 && toe_hinted p.1 = true -> p.2 = "LeftToe") /\
    (is_right p.1 && toe_hinted p.1 = true -> p.2 = "RightToe"))
  variants.
Proof. apply (bool_decide_unpack _). vm_compute. exact I. Qed.

Lemma variants_nodup : NoDup variants.*1.
Proof. apply (bool_decide_unpack _). vm_compute. exact I. Qed.

Lemma in_list_true k (l : list string) : in_list k l = true <-> k ∈ l.
Proof. unfold in_list. rewrite bool_decide_eq_true. reflexivity. Qed.

Lemma in_list_false k (l : list string) : in_list k l = false <-> k ∉ l.
Proof. unfold in_list. rewrite bool_decide_eq_false. reflexivity. Qed.

(** A name is not on both sides: it starts with [L] or with [R]. *)
Lemma left_not_right k : is_left k = true -> is_right k = false.
Proof.
  unfold is_left, is_right. simpl. destruct k as [|c k]; [discriminate|].
  simpl. unfold is_char.
  destruct (code c =? code "L")%N eqn:HL; [|rewrite !andb_false_l; discriminate].
  apply N.eqb_eq in HL. intros _.
  destruct (code c =? code "R")%N eqn:HR; [|reflexivity].
  apply N.eqb_eq in HR. rewrite HL in HR. discriminate.
Qed.

(** *** Keys and inclusion *)

Lemma has_key_true k m : has_key k m = true <-> is_Some (m !! k).
Proof.
  unfold has_key. destruct (m !! k); split; intros H; try reflexivity.
  - eauto.
  - discriminate.
  - destruct H as [? [=]].
Qed.

Lemma has_key_false k m : has_key k m = false <-> m !! k = None.
Proof. unfold has_key. destruct (m !! k); split; intros H; congruence. Qed.

Lemma has_key_mono k m m' : m ⊆ m' -> has_key k m = true -> has_key k m' = true.
Proof.
  rewrite !has_key_true. intros Hsub [v Hv]. exists v.
  eapply lookup_weaken; eassumption.
Qed.

Lemma has_key_insert k k' v m :
  has_key k (<[k' := v]> m) = false -> has_key k m = false.
Proof.
  rewrite !has_key_false. intros H. destruct (decide (k' = k)) as [->|Hne].
  - rewrite lookup_insert_eq in H. discriminate.
  - rewrite lookup_insert_ne in H by exact Hne. exact H.
Qed.

(** Writing the value a key already has, or a new key, changes no entry. *)
Lemma insert_keeps m k v :
  (forall v', m !! k = Some v' -> v' = v) -> m ⊆ <[k := v]> m.
Proof.
  intros H. apply map_subseteq_spec. intros i x Hi.
  destruct (decide (k = i)) as [->|Hne].
  - rewrite lookup_insert_eq. f_equal. symmetry. auto.
  - rewrite lookup_insert_ne by exact Hne. exact Hi.
Qed.

(** *** The identity pass *)

Lemma identity_pass_lookup order : forall m k,
  identity_pass order m !! k =
  if bool_decide (k ∈ order) && in_list k CANONICAL_GMR_SET then Some k else m !! k.
Proof.
  unfold identity_pass.
  induction order as [|n order IH]; intros m k.
  - rewrite bool_decide_eq_false_2 by apply not_elem_of_nil. reflexivity.
  - simpl foldl. rewrite IH. unfold identity_step.
    destruct (decide (k = n)) as [->|Hne].
    + rewrite (bool_decide_eq_true_2 (n ∈ n :: order)) by left.
      destruct (in_list n CANONICAL_GMR_SET); simpl.
      * rewrite lookup_insert_eq. destruct (bool_decide (n ∈ order)); reflexivity.
      * rewrite !andb_false_r. reflexivity.
    + assert (E : bool_decide (k ∈ n :: order) = bool_decide (k ∈ order)).
      { apply bool_decide_ext. rewrite elem_of_cons. tauto. }
      rewrite E.
      destruct (in_list n CANONICAL_GMR_SET);
        [rewrite lookup_insert_ne by congruence|]; reflexivity.
Qed.

Lemma after_identity_lookup order k v :
  after_identity order !! k = Some v <->
  v = k /\ k ∈ order /\ k ∈ CANONICAL_GMR_SET.
Proof.
  unfold after_identity. rewrite identity_pass_lookup, lookup_empty.
  destruct (bool_decide (k ∈ order)) eqn:E1;
    destruct (in_list k CANONICAL_GMR_SET) eqn:E2; simpl.
  - apply bool_decide_eq_true in E1. apply in_list_true in E2.
    split; [intros [= <-]; auto | intros (-> & _); reflexivity].
  - apply in_list_false in E2. split; [discriminate|tauto].
  - apply bool_decide_eq_false in E1. split; [discriminate|tauto].
  - apply bool_decide_eq_false in E1. split; [discriminate|tauto].
Qed.

(** *** The variant pass *)

Lemma variant_fold_spec order (vs : list (string * string)) : forall m k v,
  foldl (variant_step order) m vs !! k = Some v ->
  m !! k = Some v \/ ((k, v) ∈ vs /\ k ∈ order).
Proof.
  induction vs as [|[s d] vs IH]; simpl; intros m k v H; [auto|].
  apply IH in H as [H|[H1 H2]]; [|right; split; [right|]; assumption].
  unfold variant_step in H. simpl in H.
  destruct (in_list s order && in_list d CANONICAL_GMR_SET) eqn:E; [|auto].
  apply andb_true_iff in E as [E _]. apply in_list_true in E.
  destruct (decide (s = k)) as [->|Hne].
  - rewrite lookup_insert_eq in H. injection H as ->. right. split; [left|exact E].
  - rewrite lookup_insert_ne in H by exact Hne. auto.
Qed.

Lemma variant_fold_mono order (vs : list (string * string)) :
  NoDup vs.*1 -> forall m,
  (forall s, s ∈ vs.*1 -> m !! s = None) ->
  m ⊆ foldl (variant_step order) m vs.
Proof.
  induction vs as [|[s d] vs IH]; simpl; intros Hnd m Hm; [reflexivity|].
  apply NoDup_cons in Hnd as [Hs Hnd].
  transitivity (variant_step order m (s, d)).
  - unfold variant_step. simpl.
    destruct (in_list s order && in_list d CANONICAL_GMR_SET); [|reflexivity].
    apply insert_subseteq, Hm. left.
  - apply (IH Hnd). intros s' Hs'. unfold variant_step. simpl.
    destruct (in_list s order && in_list d CANONICAL_GMR_SET).
    + rewrite lookup_insert_ne by (intros ->; contradiction).
      apply Hm. right. exact Hs'.
    + apply Hm. right. exact Hs'.
Qed.

Lemma after_variants_lookup order k v :
  after_variants order !! k = Some v ->
  (v = k /\ k ∈ order /\ k ∈ CANONICAL_GMR_SET) \/ ((k, v) ∈ variants /\ k ∈ order).
Proof.
  unfold after_variants, variant_pass. intros H.
  apply variant_fold_spec in H as [H|H]; [|auto].
  left. apply after_identity_lookup. exact H.
Qed.

Lemma identity_in_variants order : after_identity order ⊆ after_variants order.
Proof.
  apply (variant_fold_mono order variants variants_nodup).
  intros s Hs. apply list_elem_of_fmap in Hs as ([s' d] & -> & Hsd). simpl.
  pose proof (proj1 (Forall_forall _ _) variant_facts _ Hsd) as (_ & Hc & _).
  simpl in Hc. apply in_list_false in Hc.
  destruct (after_identity order !! s') as [v|] eqn:E; [|reflexivity].
  apply after_identity_lookup in E as (_ & _ & E). contradiction.
Qed.

(** No key of the first two passes passes the clavicle test. *)
Lemma after_variants_no_clavicle order k v :
  after_variants order !! k = Some v -> clavicle_named k = false.
Proof.
  intros H. apply after_variants_lookup in H as [(_ & _ & H)|[H _]].
  - apply (proj1 (Forall_forall _ _) canonical_facts _ H).
  - apply (proj1 (Forall_forall _ _) variant_facts _ H).
Qed.

(** *** The clavicle pass *)

Lemma has_key_insert_true k k' v m :
  has_key k m = true -> has_key k (<[k' := v]> m) = true.
Proof.
  intros H. destruct (has_key k (<[k' := v]> m)) eqn:E; [reflexivity|].
  apply has_key_insert in E. congruence.
Qed.

Lemma clavicle_step_spec m n k v :
  clavicle_step m n !! k = Some v ->
  m !! k = Some v \/
  (k = n /\ clavicle_named n = true /\
   ((v = "LeftShoulder" /\ is_left n = true /\ has_key "LeftShoulder" m = false) \/
    (v = "RightShoulder" /\ is_right n = true /\ has_key "RightShoulder" m = false))).
Proof.
  unfold clavicle_step. cbv zeta. fold (clavicle_named n).
  destruct (clavicle_named n) eqn:Hc; [|rewrite !andb_false_l; auto].
  rewrite !andb_true_l.
  destruct (negb (has_key "LeftShoulder" m) && is_left n) eqn:E1.
  - apply andb_true_iff in E1 as [HL Hl]. apply negb_true_iff in HL.
    rewrite (left_not_right _ Hl), andb_false_r.
    destruct (decide (n = k)) as [<-|Hne].
    + rewrite lookup_insert_eq. intros [= <-]. right.
      split; [reflexivity|]. split; [reflexivity|]. left. auto.
    + rewrite lookup_insert_ne by exact Hne. auto.
  - destruct (negb (has_key "RightShoulder" m) && is_right n) eqn:E2; [|auto].
    apply andb_true_iff in E2 as [HR Hr]. apply negb_true_iff in HR.
    destruct (decide (n = k)) as [<-|Hne].
    + rewrite lookup_insert_eq. intros [= <-]. right.
      split; [reflexivity|]. split; [reflexivity|]. right. auto.
    + rewrite lookup_insert_ne by exact Hne. auto.
Qed.

Lemma clavicle_step_keys m n k :
  has_key k m = true -> has_key k (clavicle_step m n) = true.
Proof.
  intros H. unfold clavicle_step. cbv zeta.
  repeat match goal with
  | |- context [if ?b then _ else _] => destruct b
  end; repeat apply has_key_insert_true; exact H.
Qed.

Lemma clavicle_step_sided m n :
  sided m -> m ⊆ clavicle_step m n /\ sided (clavicle_step m n).
Proof.
  intros Hs. split.
  - unfold clavicle_step. cbv zeta. fold (clavicle_named n).
    destruct (clavicle_named n) eqn:Hc; [|rewrite !andb_false_l; reflexivity].
    rewrite !andb_true_l.
    destruct (negb (has_key "LeftShoulder" m) && is_left n) eqn:E1.
    + apply andb_true_iff in E1 as [_ Hl].
      rewrite (left_not_right _ Hl), andb_false_r.
      apply insert_keeps. intros v' Hv'.
      destruct (Hs _ _ Hv' Hc) as [[_ ->]|[Hr _]]; [reflexivity|].
      rewrite (left_not_right _ Hl) in Hr. discriminate.
    + destruct (negb (has_key "RightShoulder" m) && is_right n) eqn:E2; [|reflexivity].
      apply andb_true_iff in E2 as [_ Hr].
      apply insert_keeps. intros v' Hv'.
      destruct (Hs _ _ Hv' Hc) as [[Hl _]|[_ ->]]; [|reflexivity].
      rewrite (left_not_right _ Hl) in Hr. discriminate.
  - intros k v Hk Hc. apply clavicle_step_spec in Hk as [Hk|(-> & _ & Hk)].
    + apply (Hs _ _ Hk Hc).
    + destruct Hk as [(-> & Hl & _)|(-> & Hr & _)]; auto.
Qed.

Lemma clavicle_pass_spec order : forall m k v,
  clavicle_pass order m !! k = Some v ->
  m !! k = Some v \/
  (k ∈ order /\ clavicle_named k = true /\
   ((v = "LeftShoulder" /\ is_left k = true /\ has_key "LeftShoulder" m = false) \/
    (v = "RightShoulder" /\ is_right k = true /\ has_key "RightShoulder" m = false))).
Proof.
  unfold clavicle_pass.
  induction order as [|n order IH]; intros m k v H; [auto|].
  simpl in H. apply IH in H as [H|(Hin & Hc & H)].
  - apply clavicle_step_spec in H as [H|(-> & H)]; [auto|].
    right. split; [left|exact H].
  - right. split; [right; exact Hin|]. split; [exact Hc|].
    destruct H as [(-> & Hl & Hk)|(-> & Hr & Hk)]; [left|right];
      (split; [reflexivity|]; split; [assumption|]);
      (destruct (has_key _ m) eqn:E; [|reflexivity]);
      apply (clavicle_step_keys m n) in E; congruence.
Qed.

Lemma clavicle_pass_mono order : forall m, sided m -> m ⊆ clavicle_pass order m.
Proof.
  unfold clavicle_pass.
  induction order as [|n order IH]; intros m Hs; [reflexivity|].
  simpl. destruct (clavicle_step_sided m n Hs) as [Hsub Hs'].
  transitivity (clavicle_step m n); [exact Hsub|apply IH; exact Hs'].
Qed.

Lemma after_variants_sided order : sided (after_variants order).
Proof.
  intros k v Hk Hc. apply after_variants_no_clavicle in Hk. congruence.
Qed.

Lemma variants_in_clavicle order : after_variants order ⊆ after_clavicle order.
Proof. apply clavicle_pass_mono, after_variants_sided. Qed.

(** *** The toe pass *)

Lemma toe_pick_spec (toes : list string) t m k v :
  toe_pick toes t m !! k = Some v ->
  m !! k = Some v \/ (last toes = Some k /\ v = t /\ has_key t m = false).
Proof.
  unfold toe_pick. destruct (last toes) as [src|]; [|auto].
  destruct (has_key t m) eqn:E; simpl; [auto|].
  destruct (decide (src = k)) as [->|Hne].
  - rewrite lookup_insert_eq. intros [= <-]. auto.
  - rewrite lookup_insert_ne by exact Hne. auto.
Qed.

Lemma toe_pick_hit (toes : list string) t m src :
  last toes = Some src -> has_key t m = false ->
  toe_pick toes t m = <[src := t]> m.
Proof. unfold toe_pick. intros -> ->. reflexivity. Qed.

(** An entry stays when the pick, if it falls on its key, writes its value. *)
Lemma toe_pick_stable (toes : list string) t m k v :
  m !! k = Some v -> (last toes = Some k -> v = t) ->
  toe_pick toes t m !! k = Some v.
Proof.
  intros Hk Hv. unfold toe_pick. destruct (last toes) as [src|]; [|exact Hk].
  destruct (has_key t m); simpl; [exact Hk|].
  destruct (decide (src = k)) as [->|Hne].
  - rewrite lookup_insert_eq. f_equal. symmetry. auto.
  - rewrite lookup_insert_ne by exact Hne. exact Hk.
Qed.

Lemma toe_pick_cases (toes : list string) t m k v :
  m !! k = Some v ->
  toe_pick toes t m !! k = Some v \/
  (last toes = Some k /\ toe_pick toes t m !! k = Some t).
Proof.
  intros Hk. unfold toe_pick. destruct (last toes) as [src|]; [|auto].
  destruct (has_key t m); simpl; [auto|].
  destruct (decide (src = k)) as [->|Hne].
  - right. split; [reflexivity|apply lookup_insert_eq].
  - left. rewrite lookup_insert_ne by exact Hne. exact Hk.
Qed.

Lemma last_toes_left order src :
  last (toes_left order) = Some src ->
  is_left src = true /\ toe_hinted src = true /\ src ∈ order.
Proof.
  intros H. apply last_Some_elem_of, list_elem_of_In in H.
  unfold toes_left in H. apply List.filter_In in H as [Hin H].
  apply andb_true_iff in H as [H1 H2]. apply list_elem_of_In in Hin. auto.
Qed.

Lemma last_toes_right order src :
  last (toes_right order) = Some src ->
  is_right src = true /\ toe_hinted src = true /\ src ∈ order.
Proof.
  intros H. apply last_Some_elem_of, list_elem_of_In in H.
  unfold toes_right in H. apply List.filter_In in H as [Hin H].
  apply andb_true_iff in H as [H1 H2]. apply list_elem_of_In in Hin. auto.
Qed.

(** *** The claims about the mapper *)

(** C7: when the left toe candidates are not empty and [LeftToe] is not a
    key after the first three passes, the last candidate is mapped to
    [LeftToe]; if moreover no entry has the value [LeftToe] yet, it is the
    only source of [LeftToe].  The same holds on the right.  For the order
    [LeftFoot, LeftToe_01, LeftToe_02] the map sends [LeftToe_02] to
    [LeftToe]. *)
Theorem C7_last_toe_candidate order src :
  (last (toes_left order) = Some src ->
   has_key "LeftToe" (after_clavicle order) = false ->
   suggest_map order !! src = Some "LeftToe" /\
   ((forall k, after_clavicle order !! k <> Some "LeftToe") ->
    forall k, suggest_map order !! k = Some "LeftToe" -> k = src)) /\
  (last (toes_right order) = Some src ->
   has_key "RightToe" (after_clavicle order) = false ->
   suggest_map order !! src = Some "RightToe" /\
   ((forall k, after_clavicle order !! k <> Some "RightToe") ->
    forall k, suggest_map order !! k = Some "RightToe" -> k = src)) /\
  suggest_map ["LeftFoot"; "LeftToe_01"; "LeftToe_02"] !! "LeftToe_02" =
    Some "LeftToe".
Proof.
  rewrite suggest_map_stages. unfold toe_pass.
  set (m3 := after_clavicle order).
  split; [|split; [|vm_compute; reflexivity]].
  - intros Hlast Hkey.
    destruct (last_toes_left _ _ Hlast) as (Hl & _ & _).
    rewrite (toe_pick_hit _ _ _ _ Hlast Hkey).
    split.
    + apply toe_pick_stable; [apply lookup_insert_eq|].
      intros Hr. apply last_toes_right in Hr as (Hr & _ & _).
      rewrite (left_not_right _ Hl) in Hr. discriminate.
    + intros Hnone k Hk.
      apply toe_pick_spec in Hk as [Hk|(_ & [=] & _)].
      destruct (decide (src = k)) as [E|Hne]; [auto|].
      rewrite lookup_insert_ne in Hk by exact Hne.
      exfalso. exact (Hnone k Hk).
  - intros Hlast Hkey.
    destruct (last_toes_right _ _ Hlast) as (Hr & _ & _).
    assert (Hkey' : has_key "RightToe" (toe_pick (toes_left order) "LeftToe" m3) = false).
    { apply has_key_false.
      destruct (toe_pick (toes_left order) "LeftToe" m3 !! "RightToe") as [v|] eqn:E;
        [|reflexivity].
      apply toe_pick_spec in E as [E|(E & _ & _)].
      - apply has_key_false in Hkey. congruence.
      - apply last_toes_left in E as (E & _ & _). vm_compute in E. discriminate. }
    rewrite (toe_pick_hit _ _ _ _ Hlast Hkey').
    split; [apply lookup_insert_eq|].
    intros Hnone k Hk.
    destruct (decide (src = k)) as [E|Hne]; [auto|].
    rewrite lookup_insert_ne in Hk by exact Hne.
    apply toe_pick_spec in Hk as [Hk|(_ & [=] & _)].
    exfalso. exact (Hnone k Hk).
Qed.

Lemma C7_last_toe_witness :
  last (toes_left ["LeftFoot"; "LeftToe_01"; "LeftToe_02"; "RightToe_01"]) =
    Some "LeftToe_02" /\
  has_key "LeftToe"
    (after_clavicle ["LeftFoot"; "LeftToe_01"; "LeftToe_02"; "RightToe_01"]) = false /\
  suggest_map ["LeftFoot"; "LeftToe_01"; "LeftToe_02"; "RightToe_01"] !! "LeftToe_02" =
    Some "LeftToe".
Proof.
  assert (H1 : last (toes_left ["LeftFoot"; "LeftToe_01"; "LeftToe_02"; "RightToe_01"]) =
    Some "LeftToe_02") by (vm_compute; reflexivity).
  assert (H2 : has_key "LeftToe"
    (after_clavicle ["LeftFoot"; "LeftToe_01"; "LeftToe_02"; "RightToe_01"]) = false)
    by (vm_compute; reflexivity).
  split; [exact H1|]. split; [exact H2|].
  exact (proj1 (proj1 (C7_last_toe_candidate _ _) H1 H2)).
Defined.

(** C8, as stated: two left clavicle names are both mapped to
    [LeftShoulder]. *)
Lemma C8_two_sources_of_one_shoulder :
  suggest_map ["LeftClavicle"; "LClavicle"] !! "LeftClavicle" = Some "LeftShoulder" /\
  suggest_map ["LeftClavicle"; "LClavicle"] !! "LClavicle" = Some "LeftShoulder".
Proof. split; vm_compute; reflexivity. Qed.

(** C8, amended: the guard of the clavicle pass is that the canonical
    name is not a key of the map, which is so exactly when that name
    does not occur in the order.  A source of [LeftShoulder] is the name
    [LeftShoulder] itself, and then it is in the order, or a left name of
    the order that passes the clavicle test, and then [LeftShoulder] is
    not in the order; so when [LeftShoulder] occurs in the order it is
    the only source.  The same holds on the right. *)
Theorem C8_shoulder_sources order k :
  (suggest_map order !! k = Some "LeftShoulder" ->
   (k = "LeftShoulder" /\ "LeftShoulder" ∈ order) \/
   ("LeftShoulder" ∉ order /\ k ∈ order /\
    clavicle_named k = true /\ is_left k = true)) /\
  (suggest_map order !! k = Some "RightShoulder" ->
   (k = "RightShoulder" /\ "RightShoulder" ∈ order) \/
   ("RightShoulder" ∉ order /\ k ∈ order /\
    clavicle_named k = true /\ is_right k = true)).
Proof.
  assert (Hcanon : forall c, c ∈ CANONICAL_GMR_SET -> c ∈ order ->
    has_key c (after_variants order) = true).
  { intros c Hc Hin. apply (has_key_mono c _ _ (identity_in_variants order)).
    apply has_key_true. exists c. apply after_identity_lookup. auto. }
  assert (Hshape : forall t, t ∈ CANONICAL_GMR_SET ->
    t <> "LeftToe" -> t <> "RightToe" ->
    (forall s, (s, t) ∈ variants -> False) ->
    suggest_map order !! k = Some t ->
    (k = t /\ t ∈ order) \/
    (t ∉ order /\ k ∈ order /\ clavicle_named k = true /\
     ((t = "LeftShoulder" /\ is_left k = true) \/
      (t = "RightShoulder" /\ is_right k = true)))).
  { intros t Ht HtL HtR Hvar H.
    rewrite suggest_map_stages in H. unfold toe_pass in H.
    apply toe_pick_spec in H as [H|(_ & E & _)]; [|congruence].
    apply toe_pick_spec in H as [H|(_ & E & _)]; [|congruence].
    apply clavicle_pass_spec in H as [H|(Hin & Hc & H)].
    - apply after_variants_lookup in H as [(-> & Hin & _)|[H _]]; [auto|].
      exfalso. exact (Hvar _ H).
    - right.
      assert (Hkey : has_key t (after_variants order) = false).
      { destruct H as [(-> & _ & H)|(-> & _ & H)]; exact H. }
      split.
      + intros Hin'. rewrite (Hcanon t Ht Hin') in Hkey. discriminate.
      + split; [exact Hin|]. split; [exact Hc|].
        destruct H as [(-> & Hl & _)|(-> & Hr & _)]; auto. }
  assert (Hvar : forall t, (t = "LeftShoulder" \/ t = "RightShoulder") ->
    forall s, (s, t) ∈ variants -> False).
  { intros t Ht s Hs.
    pose proof (proj1 (Forall_forall _ _) variant_facts _ Hs) as (_ & _ & _ & H1 & H2 & _).
    simpl in H1, H2. destruct Ht; contradiction. }
  assert (HcL : "LeftShoulder" ∈ CANONICAL_GMR_SET)
    by (apply in_list_true; vm_compute; reflexivity).
  assert (HcR : "RightShoulder" ∈ CANONICAL_GMR_SET)
    by (apply in_list_true; vm_compute; reflexivity).
  split; intros H.
  - destruct (Hshape "LeftShoulder" HcL) as [H'|(H1 & H2 & H3 & H4)];
      [discriminate|discriminate|apply Hvar; auto|exact H| |].
    + left. exact H'.
    + right. destruct H4 as [[_ H4]|[[=] _]]. auto.
  - destruct (Hshape "RightShoulder" HcR) as [H'|(H1 & H2 & H3 & H4)];
      [discriminate|discriminate|apply Hvar; auto|exact H| |].
    + left. exact H'.
    + right. destruct H4 as [[[=] _]|[_ H4]]. auto.
Qed.

Lemma C8_shoulder_sources_witness :
  suggest_map ["Hips"; "LeftShoulder"; "LeftClavicle"] !! "LeftShoulder" =
    Some "LeftShoulder" /\
  (("LeftShoulder" = "LeftShoulder" /\
    "LeftShoulder" ∈ ["Hips"; "LeftShoulder"; "LeftClavicle"]) \/
   ("LeftShoulder" ∉ ["Hips"; "LeftShoulder"; "LeftClavicle"] /\
    "LeftShoulder" ∈ ["Hips"; "LeftShoulder"; "LeftClavicle"] /\
    clavicle_named "LeftShoulder" = true /\ is_left "LeftShoulder" = true)).
Proof.
  assert (H : suggest_map ["Hips"; "LeftShoulder"; "LeftClavicle"] !! "LeftShoulder" =
    Some "LeftShoulder") by (vm_compute; reflexivity).
  split; [exact H|].
  exact (proj1 (C8_shoulder_sources _ _) H).
Defined.

(** C9, as stated: the clavicle pass assigns [LeftShoulder] to a name and
    the toe pass then assigns [LeftToe] to the same name. *)
Lemma C9_toe_pass_overrides_clavicle :
  after_clavicle ["LeftClavicleToe"] !! "LeftClavicleToe" = Some "LeftShoulder" /\
  suggest_map ["LeftClavicleToe"] !! "LeftClavicleToe" = Some "LeftToe".
Proof. split; vm_compute; reflexivity. Qed.

(** C9, amended: the entries of the identity pass stay through the
    variant pass and those of both stay through the clavicle pass; an
    entry of the identity or the variant pass is in the final map; an
    entry of the clavicle pass is in the final map unless its key also
    has a toe hint and is the last left (right) toe candidate, in which
    case the toe pass replaces its shoulder by [LeftToe] ([RightToe]). *)
Theorem C9_earlier_entries_kept order k v :
  (after_identity order ⊆ after_variants order /\
   after_variants order ⊆ after_clavicle order) /\
  (after_variants order !! k = Some v -> suggest_map order !! k = Some v) /\
  (after_clavicle order !! k = Some v ->
   suggest_map order !! k = Some v \/
   (clavicle_named k = true /\ toe_hinted k = true /\
    ((v = "LeftShoulder" /\ last (toes_left order) = Some k /\
      suggest_map order !! k = Some "LeftToe") \/
     (v = "RightShoulder" /\ last (toes_right order) = Some k /\
      suggest_map order !! k = Some "RightToe")))).
Proof.
  assert (Hkeep : after_variants order !! k = Some v ->
    suggest_map order !! k = Some v).
  { intros H2.
    pose proof (lookup_weaken _ _ _ _ H2 (variants_in_clavicle order)) as H3.
    rewrite suggest_map_stages. unfold toe_pass.
    apply after_variants_lookup in H2.
    apply toe_pick_stable; [apply toe_pick_stable; [exact H3|]|].
    - intros Hl. apply last_toes_left in Hl as (Hl & Ht & _).
      destruct H2 as [(-> & _ & Hc)|[Hv _]].
      + apply (proj1 (Forall_forall _ _) canonical_facts _ Hc).
        rewrite Hl, Ht. reflexivity.
      + pose proof (proj1 (Forall_forall _ _) variant_facts _ Hv) as F.
        simpl in F. apply F. rewrite Hl, Ht. reflexivity.
    - intros Hr. apply last_toes_right in Hr as (Hr & Ht & _).
      destruct H2 as [(-> & _ & Hc)|[Hv _]].
      + apply (proj1 (Forall_forall _ _) canonical_facts _ Hc).
        rewrite Hr, Ht. reflexivity.
      + pose proof (proj1 (Forall_forall _ _) variant_facts _ Hv) as F.
        simpl in F. apply F. rewrite Hr, Ht. reflexivity. }
  split; [split; [apply identity_in_variants|apply variants_in_clavicle]|].
  split; [exact Hkeep|].
  intros H3. pose proof H3 as H.
  apply clavicle_pass_spec in H as [H|(_ & Hc & H)]; [left; auto|].
  rewrite suggest_map_stages. unfold toe_pass.
  destruct H as [(-> & Hl & _)|(-> & Hr & _)].
  - assert (Hnr : last (toes_right order) = Some k -> False).
    { intros E. apply last_toes_right in E as (E & _ & _).
      rewrite (left_not_right _ Hl) in E. discriminate. }
    destruct (toe_pick_cases (toes_left order) "LeftToe" _ _ _ H3) as [E|[E1 E2]].
    + left. apply toe_pick_stable; [exact E|]. intros E'. destruct (Hnr E').
    + right. split; [exact Hc|].
      split; [apply (last_toes_left _ _ E1)|].
      left. split; [reflexivity|]. split; [exact E1|].
      apply toe_pick_stable; [exact E2|]. intros E'. destruct (Hnr E').
  - assert (Hnl : last (toes_left order) = Some k -> False).
    { intros E. apply last_toes_left in E as (E & _ & _).
      rewrite (left_not_right _ E) in Hr. discriminate. }
    assert (E : toe_pick (toes_left order) "LeftToe" (after_clavicle order) !! k =
                Some "RightShoulder").
    { apply toe_pick_stable; [exact H3|]. intros E'. destruct (Hnl E'). }
    destruct (toe_pick_cases (toes_right order) "RightToe" _ _ _ E) as [E'|[E1 E2]].
    + left. exact E'.
    + right. split; [exact Hc|].
      split; [apply (last_toes_right _ _ E1)|].
      right. auto.
Qed.

Lemma C9_earlier_entries_witness :
  after_variants ["Hips"; "LeftToeBase"; "LeftToe_End"] !! "LeftToeBase" =
    Some "LeftToe" /\
  suggest_map ["Hips"; "LeftToeBase"; "LeftToe_End"] !! "LeftToeBase" =
    Some "LeftToe".
Proof.
  assert (H : after_variants ["Hips"; "LeftToeBase"; "LeftToe_End"] !! "LeftToeBase" =
    Some "LeftToe") by (vm_compute; reflexivity).
  split; [exact H|].
  exact (proj1 (proj2 (C9_earlier_entries_kept _ _ _)) H).
Defined.

End Mapper.

(** * Further properties of the parser *)

Section ParserMore.

Implicit Types (st : pstate) (ln : string) (lines pre post : list string).

Lemma take_while_all p s : all_chars p (take_while p s) = true.
Proof.
  induction s as [|c t IH]; simpl; [reflexivity|].
  destruct (p c) eqn:E; simpl; [rewrite E; exact IH|reflexivity].
Qed.

(** X1: the name a declaration line captures is not empty and is made of
    ASCII letters, digits, underscore, hyphen and dot only. *)
Theorem X1_declared_name_shape ln name :
  classify ln = KJoint name ->
  is_empty name = false /\ all_chars name_char name = true.
Proof.
  intros H. split; [exact (classify_joint_name _ _ H)|].
  unfold classify, re_joint in H.
  destruct (root_or_joint (drop_while is_space ln)) as [[typ r]|]; simpl in H.
  - destruct (spaces1 r) as [r'|]; simpl in H.
    + unfold run1 in H.
      destruct (is_empty (take_while name_char r')); simpl in H.
      * destruct (re_end ln), (contains "{" ln), (contains "}" ln),
          (re_offset ln) as [[[? ?] ?]|]; discriminate.
      * injection H as <-. apply take_while_all.
    + destruct (re_end ln), (contains "{" ln), (contains "}" ln),
        (re_offset ln) as [[[? ?] ?]|]; discriminate.
  - destruct (re_end ln), (contains "{" ln), (contains "}" ln),
      (re_offset ln) as [[[? ?] ?]|]; discriminate.
Qed.

Lemma X1_declared_name_witness :
  classify "  JOINT Left-Arm.01_x {" = KJoint "Left-Arm.01_x" /\
  is_empty "Left-Arm.01_x" = false /\ all_chars name_char "Left-Arm.01_x" = true.
Proof.
  assert (H : classify "  JOINT Left-Arm.01_x {" = KJoint "Left-Arm.01_x")
    by (vm_compute; reflexivity).
  split; [exact H|]. exact (X1_declared_name_shape _ _ H).
Defined.

(** X2: whenever the parser returns, the order list is the list of the
    names of the ROOT and JOINT lines, in the order of the lines: one entry
    per declaration line, duplicates included. *)
Theorem X2_order_is_declaration_order lines root ch offs ord :
  parse_hierarchy lines = Ok (root, ch, offs, ord) ->
  ord = declared lines /\
  length ord =
    length (List.filter (fun ln => bool_decide (is_Some (re_joint ln))) lines).
Proof.
  intros H. apply parse_order in H. subst ord. split; [reflexivity|].
  clear. induction lines as [|ln lines IH]; [reflexivity|].
  rewrite declared_cons. simpl. unfold classify.
  destruct (re_joint ln) as [[typ name]|] eqn:E.
  - rewrite bool_decide_eq_true_2 by eauto. simpl. rewrite IH. reflexivity.
  - rewrite bool_decide_eq_false_2 by (intros [? [=]]).
    destruct (re_end ln), (contains "{" ln), (contains "}" ln),
      (re_offset ln) as [[[? ?] ?]|]; exact IH.
Qed.

Lemma X2_order_witness :
  parse_hierarchy ["ROOT A"; "{"; "JOINT B"; "{"; "}"; "JOINT B"; "}"] =
    Ok (Some "A", {[ "A" := ["B"; "B"] ]}, ∅, ["A"; "B"; "B"]) /\
  ["A"; "B"; "B"] = declared ["ROOT A"; "{"; "JOINT B"; "{"; "}"; "JOINT B"; "}"].
Proof.
  assert (H : parse_hierarchy ["ROOT A"; "{"; "JOINT B"; "{"; "}"; "JOINT B"; "}"] =
    Ok (Some "A", {[ "A" := ["B"; "B"] ]}, ∅, ["A"; "B"; "B"]))
    by (vm_compute; reflexivity).
  split; [exact H|]. exact (proj1 (X2_order_is_declaration_order _ _ _ _ _ H)).
Defined.

(** X3: for every header, with or without repeated names, each edge of
    the children table joins two declared names, the parent at an earlier
    position of the order list than the child. *)
Theorem X3_parent_declared_before_child lines root ch offs ord p c :
  parse_hierarchy lines = Ok (root, ch, offs, ord) ->
  is_child ch p c ->
  before ord p c /\ p ∈ ord /\ c ∈ ord.
Proof.
  intros H Hc.
  apply good_parse in H as (st & _ & G & -> & -> & -> & ->).
  pose proof (good_edge _ _ G _ _ Hc) as Hb.
  split; [exact Hb|]. split; [eapply before_in_l|eapply before_in_r]; exact Hb.
Qed.

Lemma X3_parent_before_child_witness :
  parse_hierarchy ["ROOT A"; "{"; "JOINT B"; "{"; "}"; "}"] =
    Ok (Some "A", {[ "A" := ["B"] ]}, ∅, ["A"; "B"]) /\
  is_child {[ "A" := ["B"] ]} "A" "B" /\
  before ["A"; "B"] "A" "B".
Proof.
  assert (H : parse_hierarchy ["ROOT A"; "{"; "JOINT B"; "{"; "}"; "}"] =
    Ok (Some "A", {[ "A" := ["B"] ]}, ∅, ["A"; "B"])) by (vm_compute; reflexivity).
  assert (Hc : is_child {[ "A" := ["B"] ]} "A" "B").
  { unfold is_child. rewrite lookup_singleton_eq. simpl. left. }
  split; [exact H|]. split; [exact Hc|].
  exact (proj1 (X3_parent_declared_before_child _ _ _ _ _ _ _ H Hc)).
Defined.

(** Offsets are recorded under names that are open, hence declared. *)
Lemma run_offsets_declared lines : forall tops st st',
  good tops st ->
  (forall k, is_Some (offsets st !! k) -> k ∈ order st) ->
  run st lines = Ok st' ->
  forall k, is_Some (offsets st' !! k) -> k ∈ order st'.
Proof.
  induction lines as [|ln lines IH]; intros tops st st' G Hk H; simpl in H.
  - injection H as <-. exact Hk.
  - apply bind_Ok in H as (st1 & H1 & H2).
    apply step_spec_of in H1.
    destruct (good_step _ _ _ _ G H1) as [G1 _].
    apply (IH _ _ _ G1); [|exact H2].
    clear IH H2 G1. destruct H1; try exact Hk.
    + simpl. intros k Hs. apply elem_of_app. left. auto.
    + unfold close_brace. destruct (stack st); exact Hk.
    + simpl. intros k Hs. destruct (decide (cur = k)) as [<-|Hne].
      * apply (good_stack _ _ G). rewrite (good_current _ _ G) in H.
        destruct (stack st); simpl in H; [discriminate|].
        injection H as ->. left.
      * rewrite lookup_insert_ne in Hs by exact Hne. auto.
Qed.

(** X4: every key of the offsets table is a declared name: an OFFSET line
    met while no joint is open is recorded nowhere. *)
Theorem X4_offsets_under_declared_names lines root ch offs ord k v :
  parse_hierarchy lines = Ok (root, ch, offs, ord) ->
  offs !! k = Some v -> k ∈ ord.
Proof.
  intros H Hk.
  apply good_parse in H as (st & R & _ & -> & -> & -> & ->).
  apply (run_offsets_declared lines [] pstate_init st good_init); [|exact R|eauto].
  simpl. intros k' [v' Hv']. rewrite lookup_empty in Hv'. discriminate.
Qed.

Lemma X4_offsets_witness :
  parse_hierarchy ["OFFSET 1 2 3"; "ROOT A"; "OFFSET 0 0 0"] =
    Ok (Some "A",
        ∅,
        {[ "A" := (Float.Float false Float.Zero, Float.Float false Float.Zero,
                   Float.Float false Float.Zero) ]},
        ["A"]) /\
  "A" ∈ ["A"].
Proof.
  assert (H : parse_hierarchy ["OFFSET 1 2 3"; "ROOT A"; "OFFSET 0 0 0"] =
    Ok (Some "A",
        ∅,
        {[ "A" := (Float.Float false Float.Zero, Float.Float false Float.Zero,
                   Float.Float false Float.Zero) ]},
        ["A"])) by (vm_compute; reflexivity).
  split; [exact H|].
  eapply (X4_offsets_under_declared_names _ _ _ _ _ "A" _ H).
  apply lookup_singleton_eq.
Defined.

Lemma toplevel_nil (ks : list kind) :
  toplevel 0 ks = [] <->
  omap (fun k => match k with KJoint n => Some n | _ => None end) ks = [].
Proof.
  induction ks as [|k ks IH]; simpl; [tauto|].
  destruct k; simpl; try exact IH.
  split; discriminate.
Qed.

Lemma declared_kinds lines :
  declared lines =
  omap (fun k => match k with KJoint n => Some n | _ => None end) (classify <$> lines).
Proof.
  induction lines as [|ln lines IH]; [reflexivity|].
  rewrite declared_cons, fmap_cons.
  destruct (classify ln); simpl; first [exact IH | f_equal; exact IH].
Qed.

(** X5: the root name is absent exactly when the header declares no joint,
    and a root name that is present is one of the declared names. *)
Theorem X5_root_absent_iff_no_joint lines root ch offs ord :
  parse_hierarchy lines = Ok (root, ch, offs, ord) ->
  (root = None <-> ord = []) /\ (forall r, root = Some r -> r ∈ ord).
Proof.
  intros H. pose proof (parse_order _ _ _ _ _ H) as Hord.
  apply good_parse in H as (st & _ & G & -> & -> & -> & ->).
  rewrite (good_root _ _ G). split.
  - rewrite last_None, toplevel_nil, Hord, declared_kinds. reflexivity.
  - intros r Hr. apply (good_tops _ _ G). apply last_Some_elem_of. exact Hr.
Qed.

Lemma X5_root_absent_witness :
  parse_hierarchy ["{"; "OFFSET 1 2 3"; "}"] = Ok (None, ∅, ∅, []) /\
  ((@None string) = None <-> (@nil string) = []).
Proof.
  assert (H : parse_hierarchy ["{"; "OFFSET 1 2 3"; "}"] = Ok (None, ∅, ∅, []))
    by (vm_compute; reflexivity).
  split; [exact H|]. exact (proj1 (X5_root_absent_iff_no_joint _ _ _ _ _ H)).
Defined.

Lemma step_raise st ln e :
  step st ln = Raise e -> e = ValueError /\ ~ offset_numeric ln.
Proof.
  unfold step, record_offset, offset_numeric.
  destruct (re_joint ln) as [[typ name]|]; [discriminate|].
  destruct (re_end ln); [discriminate|].
  destruct (contains "{" ln); [discriminate|].
  destruct (contains "}" ln); [discriminate|].
  destruct (re_offset ln) as [[[gx gy] gz]|]; [|discriminate].
  destruct (current st) as [cur|]; [|discriminate].
  destruct (truthy (Some cur)); [|discriminate].
  unfold numeric, Float.of_str.
  destruct (Float.decimal gx) as [[[? ?] ?]|]; simpl;
    [|intros [= <-]; split; [reflexivity|tauto]].
  destruct (Float.decimal gy) as [[[? ?] ?]|]; simpl;
    [|intros [= <-]; split; [reflexivity|tauto]].
  destruct (Float.decimal gz) as [[[? ?] ?]|]; simpl;
    [discriminate|intros [= <-]; split; [reflexivity|tauto]].
Qed.

(** X6: the only exception the parser raises is ValueError, and it raises
    it only when some line matches the OFFSET pattern with a field that
    float() rejects. *)
Theorem X6_raises_only_value_error lines e :
  parse_hierarchy lines = Raise e ->
  e = ValueError /\ Exists (fun ln => ~ offset_numeric ln) lines.
Proof.
  unfold parse_hierarchy. intros H.
  assert (Hrun : run pstate_init lines = Raise e).
  { destruct (run pstate_init lines); simpl in H; [discriminate|].
    injection H as ->. reflexivity. }
  clear H. revert Hrun. generalize pstate_init.
  induction lines as [|ln lines IH]; intros st H; simpl in H; [discriminate|].
  destruct (step st ln) as [st'|e'] eqn:E; simpl in H.
  - destruct (IH _ H) as [He Hex]. split; [exact He|]. right. exact Hex.
  - injection H as ->. destruct (step_raise _ _ _ E) as [He Hn].
    split; [exact He|]. left. exact Hn.
Qed.

Lemma X6_raises_witness :
  parse_hierarchy ["ROOT A"; "OFFSET 1 2 3"; "OFFSET 1.2.3 0 0"] = Raise ValueError /\
  Exists (fun ln => ~ offset_numeric ln) ["ROOT A"; "OFFSET 1 2 3"; "OFFSET 1.2.3 0 0"].
Proof.
  assert (H : parse_hierarchy ["ROOT A"; "OFFSET 1 2 3"; "OFFSET 1.2.3 0 0"] =
    Raise ValueError) by (vm_compute; reflexivity).
  split; [exact H|]. exact (proj2 (X6_raises_only_value_error _ _ H)).
Defined.



Lemma run_depth lines : forall tops st st',
  good tops st -> run st lines = Ok st' ->
  length (stack st') = foldl depth_after (length (stack st)) (classify <$> lines).
Proof.
  induction lines as [|ln lines IH]; intros tops st st' G H; simpl in H.
  - injection H as <-. reflexivity.
  - apply bind_Ok in H as (st1 & H1 & H2).
    apply step_spec_of in H1.
    destruct (good_step _ _ _ _ G H1) as [G1 Hlen].
    rewrite (IH _ _ _ G1 H2), Hlen. reflexivity.
Qed.

(** X8: while the stack is empty (the count of open joints, which a
    closing brace never takes below zero, stands at zero), a line that
    declares nothing is passed over, be it a closing brace (the empty
    stack is not popped) or an OFFSET line, even with fields that float()
    rejects. *)
Theorem X8_line_outside_joints_ignored pre ln post :
  depth_of pre = 0%nat ->
  re_joint ln = None ->
  parse_hierarchy (pre ++ ln :: post) = parse_hierarchy (pre ++ post).
Proof.
  intros Hd Hj. unfold parse_hierarchy. rewrite !run_app.
  destruct (run pstate_init pre) as [st|e] eqn:R; simpl; [|reflexivity].
  pose proof (good_run pre [] pstate_init st good_init R) as G.
  pose proof (run_depth pre [] pstate_init st good_init R) as Hlen.
  simpl in Hlen. fold (depth_of pre) in Hlen. rewrite Hd in Hlen.
  assert (Hs : stack st = []) by (destruct (stack st); [reflexivity|discriminate]).
  rewrite step_idle; [reflexivity|exact Hj| |exact Hs].
  rewrite (good_current _ _ G), Hs. reflexivity.
Qed.

Lemma X8_line_outside_joints_witness :
  parse_hierarchy (["ROOT A"; "{"; "}"] ++ "OFFSET - - -" :: ["}"; "ROOT B"]) =
  parse_hierarchy (["ROOT A"; "{"; "}"] ++ ["}"; "ROOT B"]).
Proof.
  apply (X8_line_outside_joints_ignored ["ROOT A"; "{"; "}"] "OFFSET - - -"
           ["}"; "ROOT B"]); vm_compute; reflexivity.
Defined.

End ParserMore.

(** * The walk of the tree *)

Section Walk.

Implicit Types (ch : gmap string (list string)) (st : pstate).
Implicit Types (x c n cur : string) (l ls cs tops : list string).

Lemma traverses_all_app ch cs1 ls1 cs2 ls2 :
  traverses_all ch cs1 ls1 -> traverses_all ch cs2 ls2 ->
  traverses_all ch (cs1 ++ cs2) (ls1 ++ ls2).
Proof.
  intros H1 H2. induction H1 as [|c cs l ls Hc Hcs IH]; simpl; [exact H2|].
  rewrite <- app_assoc. constructor; assumption.
Qed.

Lemma traverses_all_snoc_inv ch cs c ls :
  traverses_all ch (cs ++ [c]) ls ->
  exists ls1 l, ls = ls1 ++ l /\ traverses_all ch cs ls1 /\ traverses ch c l.
Proof.
  revert ls. induction cs as [|c' cs IH]; simpl; intros ls H.
  - inversion H as [|? ? l ls' Hc Hn]; subst. inversion Hn; subst.
    exists [], l. rewrite app_nil_r. split; [reflexivity|]. split; [constructor|exact Hc].
  - inversion H as [|? ? l' ls' Hc Hrest]; subst.
    destruct (IH _ Hrest) as (ls1 & l & -> & H1 & H2).
    exists (l' ++ ls1), l. rewrite app_assoc. split; [reflexivity|].
    split; [constructor; assumption|exact H2].
Qed.

Lemma traverses_head ch x l : traverses ch x l -> x ∈ l.
Proof. intros H. inversion H; subst. left. Qed.

(** A walk that does not meet [cur] is not changed by a new child of
    [cur]. *)
Lemma traverses_frame ch cur n :
  (forall x l, traverses ch x l -> cur ∉ l ->
     traverses (append_child cur n ch) x l) /\
  (forall cs ls, traverses_all ch cs ls -> cur ∉ ls ->
     traverses_all (append_child cur n ch) cs ls).
Proof.
  split.
  - intros x l H. revert H.
    apply (traverses_mut ch
      (fun x l _ => cur ∉ l -> traverses (append_child cur n ch) x l)
      (fun cs ls _ => cur ∉ ls -> traverses_all (append_child cur n ch) cs ls)).
    + intros y ls _ IH Hn. rewrite not_elem_of_cons in Hn. destruct Hn as [Hne Hn].
      constructor. unfold children_of, append_child.
      rewrite lookup_insert_ne by congruence. apply IH. exact Hn.
    + intros _. constructor.
    + intros c cs l' ls _ IH1 _ IH2 Hn. rewrite not_elem_of_app in Hn.
      constructor; [apply IH1|apply IH2]; tauto.
  - intros cs ls H. revert H.
    apply (traverses_all_mut ch
      (fun x l _ => cur ∉ l -> traverses (append_child cur n ch) x l)
      (fun cs ls _ => cur ∉ ls -> traverses_all (append_child cur n ch) cs ls)).
    + intros y ls' _ IH Hn. rewrite not_elem_of_cons in Hn. destruct Hn as [Hne Hn].
      constructor. unfold children_of, append_child.
      rewrite lookup_insert_ne by congruence. apply IH. exact Hn.
    + intros _. constructor.
    + intros c cs' l' ls' _ IH1 _ IH2 Hn. rewrite not_elem_of_app in Hn.
      constructor; [apply IH1|apply IH2]; tauto.
Qed.

(** The rows [print_tree] prints are the walk, once the depth allowed
    reaches the number of names walked. *)
Lemma print_tree_traverses ch :
  (forall x l, traverses ch x l ->
     forall fuel level, (length l <= fuel)%nat ->
       (print_tree fuel (Some x) ch level).*2 = Some <$> l) /\
  (forall cs ls, traverses_all ch cs ls ->
     forall fuel level, (length ls <= fuel)%nat ->
       (flat_map (fun c => print_tree fuel (Some c) ch level) cs).*2 = Some <$> ls).
Proof.
  assert (Hnode : forall x ls,
    (forall fuel level, (length ls <= fuel)%nat ->
       (flat_map (fun c => print_tree fuel (Some c) ch level) (children_of ch x)).*2 =
       Some <$> ls) ->
    forall fuel level, (length (x :: ls) <= fuel)%nat ->
      (print_tree fuel (Some x) ch level).*2 = Some <$> (x :: ls)).
  { intros x ls IH fuel level Hf. destruct fuel as [|fuel]; simpl in Hf; [lia|].
    simpl. f_equal. apply IH. lia. }
  assert (Hcons : forall c cs l ls,
    (forall fuel level, (length l <= fuel)%nat ->
       (print_tree fuel (Some c) ch level).*2 = Some <$> l) ->
    (forall fuel level, (length ls <= fuel)%nat ->
       (flat_map (fun c => print_tree fuel (Some c) ch level) cs).*2 = Some <$> ls) ->
    forall fuel level, (length (l ++ ls) <= fuel)%nat ->
      (flat_map (fun c => print_tree fuel (Some c) ch level) (c :: cs)).*2 =
      Some <$> (l ++ ls)).
  { intros c cs l ls IH1 IH2 fuel level Hf. rewrite length_app in Hf.
    simpl. rewrite !fmap_app. rewrite IH1 by lia. rewrite IH2 by lia. reflexivity. }
  split.
  - intros x l H. revert H.
    apply (traverses_mut ch
      (fun x l _ => forall fuel level, (length l <= fuel)%nat ->
         (print_tree fuel (Some x) ch level).*2 = Some <$> l)
      (fun cs ls _ => forall fuel level, (length ls <= fuel)%nat ->
         (flat_map (fun c => print_tree fuel (Some c) ch level) cs).*2 = Some <$> ls));
      [intros; apply Hnode; assumption | reflexivity | intros; apply Hcons; assumption].
  - intros cs ls H. revert H.
    apply (traverses_all_mut ch
      (fun x l _ => forall fuel level, (length l <= fuel)%nat ->
         (print_tree fuel (Some x) ch level).*2 = Some <$> l)
      (fun cs ls _ => forall fuel level, (length ls <= fuel)%nat ->
         (flat_map (fun c => print_tree fuel (Some c) ch level) cs).*2 = Some <$> ls));
      [intros; apply Hnode; assumption | reflexivity | intros; apply Hcons; assumption].
Qed.

(** A name that is not declared yet has no children. *)
Lemma fresh_no_children tops st n :
  good tops st -> n ∉ order st -> children_of (children st) n = [].
Proof.
  intros G Hn. destruct (children_of (children st) n) as [|c cs] eqn:E; [reflexivity|].
  exfalso. apply Hn. apply (before_in_l _ n c). apply (good_edge _ _ G).
  unfold is_child. fold (children_of (children st) n). rewrite E. left.
Qed.

Lemma children_of_append_eq ch cur n :
  children_of (append_child cur n ch) cur = children_of ch cur ++ [n].
Proof. unfold children_of, append_child. rewrite lookup_insert_eq. reflexivity. Qed.

Lemma children_of_append_ne ch cur n x :
  x <> cur -> children_of (append_child cur n ch) x = children_of ch x.
Proof.
  intros H. unfold children_of, append_child.
  rewrite lookup_insert_ne by congruence. reflexivity.
Qed.

Lemma grows_top ch cur n :
  children_of ch n = [] -> n <> cur -> grows ch cur n cur.
Proof.
  intros Hn Hne l H Hnd. inversion H as [x ls Hls]; subst.
  apply NoDup_cons in Hnd as [Hfresh _].
  split; [|left].
  change ((cur :: ls) ++ [n]) with (cur :: (ls ++ [n])).
  constructor. rewrite children_of_append_eq.
  apply traverses_all_app.
  - apply (proj2 (traverses_frame ch cur n)); assumption.
  - change [n] with ([n] ++ []) at 2. constructor; [|constructor].
    constructor. rewrite (children_of_append_ne _ _ _ _ Hne), Hn. constructor.
Qed.

Lemma grows_up ch cur n y p :
  grows ch cur n y -> last (children_of ch p) = Some y -> grows ch cur n p.
Proof.
  intros Hy Hlast l H Hnd. inversion H as [x ls Hls]; subst.
  apply last_Some in Hlast as [cs0 Hcs]. rewrite Hcs in Hls.
  apply traverses_all_snoc_inv in Hls as (ls0 & ly & -> & H0 & H1).
  apply NoDup_cons in Hnd as [Hp Hnd].
  pose proof Hnd as Hnd'. apply NoDup_app in Hnd' as (_ & Hdisj & Hndy).
  destruct (Hy _ H1 Hndy) as [H1' Hcur].
  assert (Hcur0 : cur ∉ ls0) by (intros E; exact (Hdisj _ E Hcur)).
  assert (Hne : p <> cur).
  { intros ->. apply Hp. apply elem_of_app. right. exact Hcur. }
  split; [|right; apply elem_of_app; right; exact Hcur].
  change ((p :: ls0 ++ ly) ++ [n]) with (p :: ((ls0 ++ ly) ++ [n])).
  constructor. rewrite (children_of_append_ne _ _ _ _ Hne), Hcs, <- app_assoc.
  apply traverses_all_app.
  - apply (proj2 (traverses_frame ch cur n)); assumption.
  - rewrite <- (app_nil_r (ly ++ [n])). constructor; [exact H1'|constructor].
Qed.

Lemma grows_bottom ch cur n tops : forall below y,
  chained ch tops (y :: below) -> grows ch cur n y ->
  exists s0, last tops = Some s0 /\ grows ch cur n s0.
Proof.
  induction below as [|p below IH]; intros y Hc Hy.
  - destruct Hc as [Hc _]. eauto.
  - destruct Hc as [Hc Hrest]. apply (IH p Hrest). eapply grows_up; eassumption.
Qed.

Lemma chained_frame ch cur n tops : forall below x,
  cur ∉ below -> chained ch tops (x :: below) ->
  chained (append_child cur n ch) tops (x :: below).
Proof.
  induction below as [|p below IH]; intros x Hcur Hc; [exact Hc|].
  destruct Hc as [Hc Hrest]. rewrite not_elem_of_cons in Hcur.
  destruct Hcur as [Hne Hcur]. split.
  - rewrite children_of_append_ne by congruence. exact Hc.
  - apply IH; assumption.
Qed.

Lemma walked_init : walked [] pstate_init.
Proof. split; simpl; [constructor|exact I|constructor]. Qed.

Lemma walked_declare tops st name :
  good tops st -> walked tops st -> NoDup (order st ++ [name]) ->
  walked (tops ++ tops_of (length (stack st)) (KJoint name)) (declare name st).
Proof.
  intros G [W1 W2 W3] Hnd.
  apply NoDup_app in Hnd as (Hnd & Hfresh & _).
  assert (Hnew : name ∉ order st) by (intros E; apply (Hfresh _ E); left).
  pose proof (fresh_no_children _ _ _ G Hnew) as Hleaf.
  pose proof (good_current _ _ G) as Hcur.
  unfold declare. destruct (stack st) as [|cur below] eqn:Hs; simpl in Hcur;
    rewrite Hcur; simpl.
  - split; simpl.
    + apply traverses_all_app; [exact W1|].
      change [name] with ([name] ++ []) at 2. constructor; [|constructor].
      constructor. rewrite Hleaf. constructor.
    + split; [apply last_snoc|exact I].
    + apply NoDup_singleton.
  - rewrite app_nil_r.
    assert (Hin : cur ∈ order st) by (apply (good_stack _ _ G); rewrite Hs; left).
    assert (Hne : name <> cur) by (intros ->; contradiction).
    apply NoDup_cons in W3 as [Hcb W3].
    split; simpl.
    + destruct (grows_bottom _ cur name tops below cur W2
                  (grows_top _ _ _ Hleaf Hne)) as (s0 & Hlast & Hgrow).
      apply last_Some in Hlast as [tops0 ->].
      apply traverses_all_snoc_inv in W1 as (o0 & l0 & Ho & H0 & H1).
      rewrite Ho in *. pose proof Hnd as Hnd'.
      apply NoDup_app in Hnd' as (_ & Hdisj & Hnd0).
      destruct (Hgrow _ H1 Hnd0) as [H1' Hc0].
      rewrite <- app_assoc. apply traverses_all_app.
      * apply (proj2 (traverses_frame _ cur name)); [exact H0|].
        intros E. exact (Hdisj _ E Hc0).
      * rewrite <- (app_nil_r (l0 ++ [name])). constructor; [exact H1'|constructor].
    + split; [rewrite children_of_append_eq; apply last_snoc|].
      apply chained_frame; assumption.
    + apply NoDup_cons. split.
      * intros E. apply Hnew. apply (good_stack _ _ G). rewrite Hs. exact E.
      * apply NoDup_cons. auto.
Qed.

Lemma walked_step tops st k st' :
  good tops st -> walked tops st -> step_spec st k st' -> NoDup (order st') ->
  walked (tops ++ tops_of (length (stack st)) k) st'.
Proof.
  intros G W S Hnd. destruct S; simpl; rewrite ?app_nil_r; try exact W.
  - apply walked_declare; assumption.
  - unfold close_brace. destruct (stack st) as [|x rest] eqn:Hs.
    + destruct W as [W1 W2 W3]. split; rewrite ?Hs in *; assumption.
    + destruct W as [W1 W2 W3]. rewrite Hs in *. split; simpl.
      * exact W1.
      * destruct W2 as [_ W2]. exact W2.
      * apply NoDup_cons in W3 as [_ W3]. exact W3.
  - destruct W as [W1 W2 W3]. split; assumption.
Qed.

Lemma walked_run lines : forall tops st st',
  good tops st -> walked tops st -> run st lines = Ok st' -> NoDup (order st') ->
  walked (tops ++ toplevel (length (stack st)) (classify <$> lines)) st'.
Proof.
  induction lines as [|ln lines IH]; intros tops st st' G W H Hnd; simpl in H.
  - injection H as <-. simpl. rewrite app_nil_r. exact W.
  - apply bind_Ok in H as (st1 & H1 & H2).
    apply step_spec_of in H1.
    destruct (good_step _ _ _ _ G H1) as [G1 Hlen].
    assert (Hnd1 : NoDup (order st1)).
    { rewrite (run_order _ _ _ H2) in Hnd. apply NoDup_app in Hnd. tauto. }
    pose proof (walked_step _ _ _ _ G W H1 Hnd1) as W1.
    specialize (IH _ _ _ G1 W1 H2 Hnd).
    rewrite Hlen in IH. rewrite fmap_cons. simpl. rewrite app_assoc. exact IH.
Qed.

(** The order list is the walk from the names declared with no joint
    open. *)
Lemma order_walk lines root ch offs ord :
  parse_hierarchy lines = Ok (root, ch, offs, ord) ->
  NoDup (declared lines) ->
  (forall fuel, (length ord <= fuel)%nat ->
     (flat_map (fun t => print_tree fuel (Some t) ch 0)
        (toplevel 0 (classify <$> lines))).*2 = Some <$> ord) /\
  (forall r, toplevel 0 (classify <$> lines) = [r] ->
     root = Some r /\
     forall fuel, (length ord <= fuel)%nat ->
       (print_tree fuel root ch 0).*2 = Some <$> ord).
Proof.
  intros H Hnd. pose proof (parse_order _ _ _ _ _ H) as Hord.
  apply good_parse in H as (st & R & G & -> & -> & -> & ->).
  rewrite <- Hord in Hnd.
  pose proof (walked_run lines [] pstate_init st good_init walked_init R Hnd) as W.
  simpl in W. destruct W as [W _ _].
  assert (Hall : forall fuel, (length (order st) <= fuel)%nat ->
    (flat_map (fun t => print_tree fuel (Some t) (children st) 0)
       (toplevel 0 (classify <$> lines))).*2 = Some <$> order st).
  { intros fuel Hf. apply (proj2 (print_tree_traverses (children st)) _ _ W). exact Hf. }
  split; [exact Hall|].
  intros r Hr. split.
  - rewrite (good_root _ _ G). simpl. rewrite Hr. reflexivity.
  - intros fuel Hf. specialize (Hall fuel Hf). rewrite Hr in Hall. simpl in Hall.
    rewrite app_nil_r in Hall.
    rewrite (good_root _ _ G). simpl. rewrite Hr. exact Hall.
Qed.

(** X17: for a header whose declared names are pairwise distinct, the
    order list is the depth-first walk of the children table that
    [print_tree] makes, started in turn from each name declared while no
    joint was open; the walk ends within a depth of the number of names.
    With a single such name, it is the root returned, and [print_tree]
    from the root prints the names of the order list, in that order. *)
Theorem X17_order_is_the_walk lines root ch offs ord :
  parse_hierarchy lines = Ok (root, ch, offs, ord) ->
  NoDup (declared lines) ->
  (forall fuel, (length ord <= fuel)%nat ->
     (flat_map (fun t => print_tree fuel (Some t) ch 0)
        (toplevel 0 (classify <$> lines))).*2 = Some <$> ord) /\
  (forall r, toplevel 0 (classify <$> lines) = [r] ->
     root = Some r /\
     forall fuel, (length ord <= fuel)%nat ->
       (print_tree fuel root ch 0).*2 = Some <$> ord).
Proof. apply order_walk. Qed.

Lemma X17_order_is_the_walk_witness :
  parse_hierarchy
    ["ROOT Hips"; "{"; "JOINT Spine"; "{"; "JOINT Head"; "{"; "}"; "}";
     "JOINT LeftUpLeg"; "{"; "}"; "}"] =
    Ok (Some "Hips",
        {[ "Hips" := ["Spine"; "LeftUpLeg"]; "Spine" := ["Head"] ]}, ∅,
        ["Hips"; "Spine"; "Head"; "LeftUpLeg"]) /\
  (print_tree 4 (Some "Hips")
     {[ "Hips" := ["Spine"; "LeftUpLeg"]; "Spine" := ["Head"] ]} 0).*2 =
    Some <$> ["Hips"; "Spine"; "Head"; "LeftUpLeg"].
Proof.
  assert (H : parse_hierarchy
    ["ROOT Hips"; "{"; "JOINT Spine"; "{"; "JOINT Head"; "{"; "}"; "}";
     "JOINT LeftUpLeg"; "{"; "}"; "}"] =
    Ok (Some "Hips",
        {[ "Hips" := ["Spine"; "LeftUpLeg"]; "Spine" := ["Head"] ]}, ∅,
        ["Hips"; "Spine"; "Head"; "LeftUpLeg"])) by (vm_compute; reflexivity).
  split; [exact H|].
  refine (proj2 (proj2 (X17_order_is_the_walk _ _ _ _ _ H _) "Hips" _) 4%nat _).
  - apply (bool_decide_unpack _). vm_compute. exact I.
  - vm_compute. reflexivity.
  - vm_compute. lia.
Defined.

Lemma flat_map_length_ge {A B} (f : A -> list B) (c : A) (cs : list A) :
  c ∈ cs -> (length (f c) <= length (flat_map f cs))%nat.
Proof.
  induction cs as [|c' cs IH]; intros H.
  - apply elem_of_nil in H. contradiction.
  - simpl. rewrite length_app. apply elem_of_cons in H as [->|H]; [lia|].
    specialize (IH H). lia.
Qed.

(** X18: when a name is listed among its own children, as after a joint
    declared inside a joint of the same name, the walk of [print_tree]
    from it does not end: whatever depth is allowed, it prints at least
    that many rows. *)
Theorem X18_walk_of_own_child_unbounded ch n :
  is_child ch n n ->
  forall fuel level, (fuel <= length (print_tree fuel (Some n) ch level))%nat.
Proof.
  intros H fuel. induction fuel as [|fuel IH]; intros level; simpl; [lia|].
  pose proof (flat_map_length_ge
    (fun c => print_tree fuel (Some c) ch (S level)) n (default [] (ch !! n)) H) as Hle.
  specialize (IH (S level)). simpl in Hle. lia.
Qed.

Lemma X18_walk_of_own_child_witness :
  parse_hierarchy ["ROOT A"; "{"; "JOINT A"; "{"; "}"; "}"] =
    Ok (Some "A", {[ "A" := ["A"] ]}, ∅, ["A"; "A"]) /\
  (1000 <= length (print_tree 1000 (Some "A") {[ "A" := ["A"] ]} 0))%nat.
Proof.
  split; [vm_compute; reflexivity|].
  apply X18_walk_of_own_child_unbounded.
  unfold is_child. rewrite lookup_singleton_eq. simpl. left.
Defined.

(** In a well nested block without End Site, every joint after the first
    is declared while a joint is open. *)
Lemma toplevel_nested (ks : list kind) : forall (bd : nat) (pending : bool),
  well_nested bd pending ks = true ->
  Forall (fun k => k <> KEnd) ks ->
  (1 <= bd + (if pending then 1 else 0))%nat ->
  toplevel (bd + (if pending then 1 else 0)) ks = [].
Proof.
  induction ks as [|k ks IH]; intros bd pending Hw Hne Hd; [reflexivity|].
  apply Forall_cons in Hne as [Hk Hne].
  destruct k; simpl in Hw |- *.
  - apply andb_true_iff in Hw as [Hp Hw]. apply negb_true_iff in Hp. subst pending.
    rewrite Nat.add_0_r in *. destruct bd as [|bd]; [lia|]. simpl.
    specialize (IH (S bd) true Hw Hne). rewrite Nat.add_1_r in IH. apply IH. lia.
  - contradiction.
  - apply andb_true_iff in Hw as [Hp Hw]. subst pending.
    specialize (IH (S bd) false Hw Hne). rewrite Nat.add_0_r in IH.
    rewrite Nat.add_1_r. apply IH. lia.
  - apply andb_true_iff in Hw as [Hp Hw]. apply negb_true_iff in Hp. subst pending.
    rewrite Nat.add_0_r in *.
    destruct bd as [|[|bd]]; [discriminate| |].
    + destruct ks; [reflexivity|discriminate].
    + simpl. specialize (IH (S bd) false Hw Hne). rewrite Nat.add_0_r in IH.
      apply IH. lia.
  - apply andb_true_iff in Hw as [Hp Hw]. apply andb_true_iff in Hp as [Hp _].
    apply negb_true_iff in Hp. subst pending. apply (IH bd false Hw Hne Hd).
  - apply andb_true_iff in Hw as [Hp Hw]. apply andb_true_iff in Hp as [Hp _].
    apply negb_true_iff in Hp. subst pending. apply (IH bd false Hw Hne Hd).
Qed.

(** X22: for a well-formed hierarchy block that has no End Site line,
    the root returned is the first name declared, and the order list is
    the pre-order walk of the tree from the root, as [print_tree] prints
    it. *)
Theorem X22_preorder_without_end_site lines root ch offs ord :
  well_formed lines ->
  Forall (fun ln => classify ln <> KEnd) lines ->
  parse_hierarchy lines = Ok (root, ch, offs, ord) ->
  root = head ord /\
  forall fuel, (length ord <= fuel)%nat ->
    (print_tree fuel root ch 0).*2 = Some <$> ord.
Proof.
  intros [Hwf Hnd] Hne H.
  pose proof (parse_order _ _ _ _ _ H) as Hord.
  assert (Htop : exists r, toplevel 0 (classify <$> lines) = [r] /\ head ord = Some r).
  { rewrite Hord, declared_kinds.
    assert (Hne' : Forall (fun k => k <> KEnd) (classify <$> lines)).
    { apply Forall_fmap. exact Hne. }
    destruct (classify <$> lines) as [|k ks]; [contradiction|].
    destruct k; try contradiction.
    apply Forall_cons in Hne' as [_ Hne'].
    simpl in Hwf. exists name. split; [|reflexivity].
    simpl. f_equal. apply (toplevel_nested ks 0 true Hwf Hne'). simpl. lia. }
  destruct Htop as (r & Htop & Hhead).
  destruct (proj2 (order_walk lines root ch offs ord H Hnd) r Htop) as [-> Hwalk].
  split; [symmetry; exact Hhead|exact Hwalk].
Qed.

Lemma X22_preorder_without_end_site_witness :
  parse_hierarchy
    ["ROOT Hips"; "{"; "JOINT Spine"; "{"; "JOINT Head"; "{"; "}"; "}";
     "JOINT LeftUpLeg"; "{"; "}"; "}"] =
    Ok (Some "Hips",
        {[ "Hips" := ["Spine"; "LeftUpLeg"]; "Spine" := ["Head"] ]}, ∅,
        ["Hips"; "Spine"; "Head"; "LeftUpLeg"]) /\
  Some "Hips" = head ["Hips"; "Spine"; "Head"; "LeftUpLeg"].
Proof.
  assert (H : parse_hierarchy
    ["ROOT Hips"; "{"; "JOINT Spine"; "{"; "JOINT Head"; "{"; "}"; "}";
     "JOINT LeftUpLeg"; "{"; "}"; "}"] =
    Ok (Some "Hips",
        {[ "Hips" := ["Spine"; "LeftUpLeg"]; "Spine" := ["Head"] ]}, ∅,
        ["Hips"; "Spine"; "Head"; "LeftUpLeg"])) by (vm_compute; reflexivity).
  assert (Hwf : well_formed
    ["ROOT Hips"; "{"; "JOINT Spine"; "{"; "JOINT Head"; "{"; "}"; "}";
     "JOINT LeftUpLeg"; "{"; "}"; "}"]).
  { split; [vm_compute; reflexivity|].
    apply (bool_decide_unpack _). vm_compute. exact I. }
  assert (Hne : Forall (fun ln => classify ln <> KEnd)
    ["ROOT Hips"; "{"; "JOINT Spine"; "{"; "JOINT Head"; "{"; "}"; "}";
     "JOINT LeftUpLeg"; "{"; "}"; "}"]).
  { repeat (apply Forall_cons; split; [vm_compute; discriminate|]). constructor. }
  split; [exact H|].
  exact (proj1 (X22_preorder_without_end_site _ _ _ _ _ Hwf Hne H)).
Defined.

End Walk.





(** * The routing of the lines *)

Section Routing.

Implicit Types (b : blocks) (ln : string) (lines pre body rest : list string).

Lemma route_hierarchy b ln :
  hierarchy_mark ln = true ->
  route b ln = Blocks true (in_motion b) (header_lines b) (motion_lines b).
Proof. unfold route, hierarchy_mark. intros ->. reflexivity. Qed.

Lemma route_not_hierarchy b ln :
  hierarchy_mark ln = false ->
  route b ln =
    let b' := if motion_mark ln
              then Blocks false true (header_lines b) (motion_lines b) else b in
    if in_motion b' then
      Blocks (in_hier b') (in_motion b') (header_lines b') (motion_lines b' ++ [ln])
    else if in_hier b' then
      Blocks (in_hier b') (in_motion b') (header_lines b' ++ [ln]) (motion_lines b')
    else b'.
Proof. unfold route, hierarchy_mark, motion_mark. intros ->. reflexivity. Qed.

(** A line cannot open both blocks. *)
Lemma marks_exclusive ln : hierarchy_mark ln = true -> motion_mark ln = false.
Proof.
  unfold hierarchy_mark, motion_mark. destruct (strip ln) as [|c s]; [discriminate|].
  simpl. unfold is_char.
  destruct (code c =? code "H")%N eqn:EH; [|discriminate].
  apply N.eqb_eq in EH. intros _.
  destruct (code c =? code "M")%N eqn:EM; [|reflexivity].
  apply N.eqb_eq in EM. rewrite EH in EM. discriminate.
Qed.

(** Before any mark, lines are dropped. *)
Lemma route_before lines : forall h m,
  Forall plain lines ->
  foldl route (Blocks false false h m) lines = Blocks false false h m.
Proof.
  induction lines as [|ln lines IH]; intros h m H; [reflexivity|].
  apply Forall_cons in H as [[H1 H2] H]. simpl.
  rewrite (route_not_hierarchy _ _ H1), H2. simpl. apply IH. exact H.
Qed.

(** Inside the hierarchy block, lines go to the header. *)
Lemma route_inside lines : forall h m,
  Forall plain lines ->
  foldl route (Blocks true false h m) lines = Blocks true false (h ++ lines) m.
Proof.
  induction lines as [|ln lines IH]; intros h m H.
  - simpl. rewrite app_nil_r. reflexivity.
  - apply Forall_cons in H as [[H1 H2] H]. simpl.
    rewrite (route_not_hierarchy _ _ H1), H2. simpl.
    rewrite (IH _ _ H), <- app_assoc. reflexivity.
Qed.

(** Once the motion block is open, every line but a hierarchy mark goes to
    the motion lines, and the header is closed. *)
Lemma route_after lines : forall b,
  in_motion b = true ->
  in_motion (foldl route b lines) = true /\
  header_lines (foldl route b lines) = header_lines b /\
  motion_lines (foldl route b lines) =
    motion_lines b ++ List.filter (fun ln => negb (hierarchy_mark ln)) lines.
Proof.
  induction lines as [|ln lines IH]; intros b Hb; simpl.
  - rewrite app_nil_r. auto.
  - destruct (hierarchy_mark ln) eqn:E; simpl.
    + rewrite (route_hierarchy _ _ E).
      destruct (IH (Blocks true (in_motion b) (header_lines b) (motion_lines b)) Hb)
        as (I1 & I2 & I3).
      auto.
    + rewrite (route_not_hierarchy _ _ E).
      destruct (motion_mark ln); simpl; rewrite ?Hb.
      * destruct (IH (Blocks false true (header_lines b) (motion_lines b ++ [ln]))
                  eq_refl) as (I1 & I2 & I3).
        rewrite I1, I2, I3. simpl. rewrite <- app_assoc. auto.
      * destruct (IH (Blocks (in_hier b) true (header_lines b) (motion_lines b ++ [ln]))
                  eq_refl) as (I1 & I2 & I3).
        rewrite I1, I2, I3. simpl. rewrite <- app_assoc. auto.
Qed.

(** X19: for a file made of lines without marks, a HIERARCHY line, lines
    without marks, a MOTION line and any lines, [read_bvh_header] returns
    as header the lines strictly between the two marks, and reads the
    frame rate from the MOTION line and the lines after it, those that
    start with HIERARCHY left out. *)
Theorem X19_header_between_the_marks text pre h body mo rest :
  splitlines text = pre ++ h :: body ++ mo :: rest ->
  Forall plain pre -> hierarchy_mark h = true ->
  Forall plain body -> motion_mark mo = true ->
  read_bvh_header text =
    fps ← parse_fps (mo :: List.filter (fun ln => negb (hierarchy_mark ln)) rest);
    Ok (body, fps).
Proof.
  intros Hsplit Hpre Hh Hbody Hmo.
  assert (Hmo' : hierarchy_mark mo = false).
  { destruct (hierarchy_mark mo) eqn:E; [|reflexivity].
    rewrite (marks_exclusive _ E) in Hmo. discriminate. }
  unfold read_bvh_header. rewrite Hsplit.
  rewrite foldl_app. unfold no_blocks. rewrite (route_before pre _ _ Hpre).
  simpl. rewrite (route_hierarchy _ _ Hh). simpl.
  rewrite foldl_app, (route_inside body _ _ Hbody). simpl.
  rewrite (route_not_hierarchy _ _ Hmo'), Hmo. simpl.
  destruct (route_after rest (Blocks false true body [mo]) eq_refl) as (_ & I2 & I3).
  rewrite I2, I3. reflexivity.
Qed.

Lemma X19_header_between_witness :
  read_bvh_header (text_of
    ["# exported"; "HIERARCHY"; "ROOT Hips"; "{"; "}"; "MOTION"; "Frames: 1";
     "Frame Time: 0.0333333"; "0.0 0.0 0.0"]) =
  Ok (["ROOT Hips"; "{"; "}"], Some 30).
Proof.
  refine (eq_trans (X19_header_between_the_marks _ ["# exported"] "HIERARCHY"
    ["ROOT Hips"; "{"; "}"] "MOTION"
    ["Frames: 1"; "Frame Time: 0.0333333"; "0.0 0.0 0.0"] _ _ _ _ _) _).
  - vm_compute. reflexivity.
  - repeat constructor.
  - vm_compute. reflexivity.
  - repeat constructor.
  - vm_compute. reflexivity.
  - vm_compute. reflexivity.
Defined.

Lemma route_no_hierarchy lines : forall b,
  Forall (fun ln => hierarchy_mark ln = false) lines ->
  in_hier b = false ->
  header_lines (foldl route b lines) = header_lines b.
Proof.
  induction lines as [|ln lines IH]; intros b H Hb; [reflexivity|].
  apply Forall_cons in H as [H1 H]. simpl.
  rewrite (IH _ H).
  - rewrite (route_not_hierarchy _ _ H1).
    destruct (motion_mark ln); simpl; [reflexivity|].
    destruct (in_motion b); simpl; [reflexivity|]. rewrite Hb. reflexivity.
  - rewrite (route_not_hierarchy _ _ H1).
    destruct (motion_mark ln); simpl; [reflexivity|].
    destruct (in_motion b); simpl; [exact Hb|]. rewrite Hb. exact Hb.
Qed.

(** X20: when no line of the file starts with HIERARCHY, the header
    returned is empty, wherever the MOTION line is; the parser then
    returns the empty hierarchy. *)
Theorem X20_no_hierarchy_mark_empty_header text header fps :
  Forall (fun ln => hierarchy_mark ln = false) (splitlines text) ->
  read_bvh_header text = Ok (header, fps) ->
  header = [] /\ parse_hierarchy header = Ok (None, ∅, ∅, []).
Proof.
  intros H R. unfold read_bvh_header in R.
  apply bind_Ok in R as (fps' & _ & [= <- <-]).
  rewrite (route_no_hierarchy _ no_blocks H eq_refl). split; reflexivity.
Qed.

Lemma X20_no_hierarchy_mark_witness :
  Forall (fun ln => hierarchy_mark ln = false)
    (splitlines (text_of ["ROOT Hips"; "{"; "}"; "MOTION"; "Frame Time: 0.0333333"])) /\
  read_bvh_header (text_of ["ROOT Hips"; "{"; "}"; "MOTION"; "Frame Time: 0.0333333"]) =
    Ok ([], Some 30).
Proof.
  assert (H : Forall (fun ln => hierarchy_mark ln = false)
    (splitlines (text_of ["ROOT Hips"; "{"; "}"; "MOTION"; "Frame Time: 0.0333333"]))).
  { replace (splitlines _) with ["ROOT Hips"; "{"; "}"; "MOTION"; "Frame Time: 0.0333333"]
      by (vm_compute; reflexivity).
    repeat constructor. }
  assert (R : read_bvh_header
    (text_of ["ROOT Hips"; "{"; "}"; "MOTION"; "Frame Time: 0.0333333"]) =
    Ok ([], Some 30)) by (vm_compute; reflexivity).
  destruct (X20_no_hierarchy_mark_empty_header _ _ _ H R) as [_ _].
  split; [exact H|exact R].
Defined.

Lemma route_no_motion lines : forall b,
  Forall (fun ln => motion_mark ln = false) lines ->
  in_motion b = false ->
  motion_lines (foldl route b lines) = motion_lines b.
Proof.
  induction lines as [|ln lines IH]; intros b H Hb; [reflexivity|].
  apply Forall_cons in H as [H1 H]. simpl.
  destruct (hierarchy_mark ln) eqn:E.
  - rewrite (route_hierarchy _ _ E). rewrite (IH _ H); [reflexivity|exact Hb].
  - rewrite (route_not_hierarchy _ _ E), H1. simpl. rewrite Hb.
    destruct (in_hier b) eqn:Eh.
    + rewrite (IH _ H); reflexivity.
    + rewrite (IH _ H); [reflexivity|exact Hb].
Qed.

(** X21: when no line of the file starts with MOTION, the frame rate is
    absent and [read_bvh_header] does not raise, whatever frame-time lines
    the file holds. *)
Theorem X21_no_motion_mark_no_rate text :
  Forall (fun ln => motion_mark ln = false) (splitlines text) ->
  exists header, read_bvh_header text = Ok (header, None).
Proof.
  intros H. unfold read_bvh_header.
  rewrite (route_no_motion _ no_blocks H eq_refl). simpl. eexists. reflexivity.
Qed.

Lemma X21_no_motion_mark_witness :
  exists header,
    read_bvh_header (text_of ["HIERARCHY"; "ROOT Hips"; "Frame Time: e"]) =
    Ok (header, None).
Proof.
  apply X21_no_motion_mark_no_rate.
  replace (splitlines _) with ["HIERARCHY"; "ROOT Hips"; "Frame Time: e"]
    by (vm_compute; reflexivity).
  repeat constructor.
Defined.

End Routing.

(** * The sign of the frame rate *)

Section FrameRateSign.

Import Float.

Lemma div_half_even_nonneg n d : 0 <= n -> 0 < d -> 0 <= div_half_even n d.
Proof.
  intros Hn Hd. unfold div_half_even.
  assert (Hq : 0 <= n / d) by (apply Z.div_pos; lia).
  destruct (2 * (n mod d) <? d); [exact Hq|].
  destruct (d <? 2 * (n mod d)); [lia|].
  destruct (Z.even (n / d)); lia.
Qed.

Lemma round_b64_positive n d :
  0 < n -> 0 < d ->
  match round_b64 n d with Finite m _ => 0 < m | _ => True end.
Proof.
  intros Hn Hd. unfold round_b64.
  set (e := Z.max _ (-1074)).
  set (m := div_half_even _ _).
  assert (Hm : 0 <= m).
  { apply div_half_even_nonneg.
    - apply Z.mul_nonneg_nonneg; [lia|]. apply Z.pow_nonneg. lia.
    - apply Z.mul_pos_pos; [lia|]. apply Z.pow_pos_nonneg; lia. }
  destruct (m =? 2 ^ 53) eqn:E53.
  - destruct (2 ^ 52 =? 0) eqn:E; [exact I|].
    destruct (971 <? e + 1); [exact I|]. reflexivity.
  - destruct (m =? 0) eqn:E0; [exact I|].
    destruct (971 <? e); [exact I|]. apply Z.eqb_neq in E0. lia.
Qed.

Lemma digits_value_nonneg s : forall acc,
  0 <= acc -> all_chars is_digit s = true -> 0 <= digits_value acc s.
Proof.
  induction s as [|c s IH]; simpl; intros acc Hacc H; [exact Hacc|].
  apply andb_true_iff in H as [Hc H]. apply IH; [|exact H].
  unfold is_digit, between in Hc. apply andb_true_iff in Hc as [Hc _].
  apply N.leb_le in Hc. unfold digit_value. lia.
Qed.

Lemma decimal_mantissa_nonneg g neg m ex :
  decimal g = Some (neg, m, ex) -> 0 <= m.
Proof.
  unfold decimal. destruct (opt_sign g) as [sg s0].
  set (ip := take_while is_digit s0).
  set (s1 := drop_while is_digit s0).
  assert (Hip : all_chars is_digit ip = true) by apply take_while_all.
  assert (Hshape : forall fp rest,
    all_chars is_digit fp = true ->
    (if is_empty ip && is_empty fp then None
     else ex' ← exponent rest;
          Some (sg, digits_value (digits_value 0 ip) fp,
                ex' - Z.of_nat (String.length fp))) = Some (neg, m, ex) ->
    0 <= m).
  { intros fp rest Hfp H.
    destruct (is_empty ip && is_empty fp); [discriminate|].
    destruct (exponent rest) as [ex'|]; simpl in H; [|discriminate].
    injection H as _ <- _.
    apply digits_value_nonneg; [|exact Hfp].
    apply digits_value_nonneg; [lia|exact Hip]. }
  destruct s1 as [|c t].
  - apply Hshape. reflexivity.
  - destruct (is_char "." c).
    + apply Hshape. apply take_while_all.
    + apply Hshape. reflexivity.
Qed.

Lemma of_str_positive_mantissa g x :
  of_str g = Ok x -> positive_mantissa x.
Proof.
  unfold of_str. destruct (decimal g) as [[[neg m] ex]|] eqn:E; [|discriminate].
  intros [= <-]. unfold positive_mantissa. simpl.
  pose proof (decimal_mantissa_nonneg _ _ _ _ E) as Hm.
  destruct (m =? 0) eqn:E0; [exact I|]. apply Z.eqb_neq in E0.
  apply round_b64_positive.
  - apply Z.mul_pos_pos; [lia|]. apply Z.pow_pos_nonneg; lia.
  - apply Z.pow_pos_nonneg; lia.
Qed.

Lemma round_one_over_nonneg x a :
  positive_mantissa x -> round (one_over x) = Ok a -> 0 <= a.
Proof.
  unfold positive_mantissa, round, one_over. simpl.
  destruct (mag x) as [|m e|]; intros Hx H.
  - discriminate.
  - pose proof (round_b64_positive (2 ^ Z.max 0 (- e)) (m * 2 ^ Z.max 0 e)) as Hr.
    destruct (round_b64 (2 ^ Z.max 0 (- e)) (m * 2 ^ Z.max 0 e)) as [|m' e'|].
    + injection H as <-. lia.
    + injection H as <-. apply div_half_even_nonneg.
      * apply Z.mul_nonneg_nonneg; [|apply Z.pow_nonneg; lia].
        assert (0 < m'); [|lia].
        apply Hr; [apply Z.pow_pos_nonneg; lia|].
        apply Z.mul_pos_pos; [lia|]. apply Z.pow_pos_nonneg; lia.
      * apply Z.pow_pos_nonneg; lia.
    + discriminate.
  - injection H as <-. lia.
Qed.

Lemma parse_fps_nonneg motion fps : parse_fps motion = Ok (Some fps) -> 0 <= fps.
Proof.
  induction motion as [|ln rest IH]; simpl; [discriminate|].
  destruct (re_frame_time ln) as [g|]; [|exact IH].
  unfold fps_of_match. intros H.
  apply bind_Ok in H as (dt & Hdt & H).
  destruct (is_positive dt); [|discriminate].
  apply bind_Ok in H as (a & Ha & [= <-]).
  eapply round_one_over_nonneg; [|exact Ha].
  eapply of_str_positive_mantissa. exact Hdt.
Qed.

(** X23: a frame rate that [read_bvh_header] returns is never negative.
    It can be zero, for a frame time of two seconds or more, which the
    report then prints as unknown. *)
Theorem X23_frame_rate_not_negative text header fps :
  read_bvh_header text = Ok (header, Some fps) -> 0 <= fps.
Proof.
  unfold read_bvh_header. intros H.
  apply bind_Ok in H as (fps' & Hfps & [= _ ->]).
  exact (parse_fps_nonneg _ _ Hfps).
Qed.

Lemma X23_frame_rate_witness :
  read_bvh_header (text_of ["HIERARCHY"; "ROOT Hips"; "MOTION"; "Frame Time: 2.5"]) =
    Ok (["ROOT Hips"], Some 0) /\ 0 <= 0.
Proof.
  assert (H : read_bvh_header
    (text_of ["HIERARCHY"; "ROOT Hips"; "MOTION"; "Frame Time: 2.5"]) =
    Ok (["ROOT Hips"], Some 0)) by (vm_compute; reflexivity).
  split; [exact H|]. exact (X23_frame_rate_not_negative _ _ _ H).
Defined.

End FrameRateSign.

(** * Further properties of the name mapper *)

Section MapperMore.

Implicit Types (m : gmap string string) (order : list string) (k v n : string).

Lemma variant_sides :
  Forall (fun p =>
    (is_left p.2 = true -> is_left p.1 = true) /\
    (is_right p.2 = true -> is_right p.1 = true) /\
    (p.2 = "LeftToe" -> is_left p.1 && toe_hinted p.1 = true) /\
    (p.2 = "RightToe" -> is_right p.1 && toe_hinted p.1 = true))
  variants.
Proof. apply (bool_decide_unpack _). vm_compute. exact I. Qed.

Lemma variant_toe_sources :
  Forall (fun p =>
    (p.2 = "LeftToe" -> p.1 = "LeftToeBase") /\
    (p.2 = "RightToe" -> p.1 = "RightToeBase"))
  variants.
Proof. apply (bool_decide_unpack _). vm_compute. exact I. Qed.

(** Where an entry of the final map comes from. *)
Lemma suggest_map_origin order k v :
  suggest_map order !! k = Some v ->
  (v = k /\ k ∈ order /\ k ∈ CANONICAL_GMR_SET) \/
  ((k, v) ∈ variants /\ k ∈ order) \/
  (k ∈ order /\ clavicle_named k = true /\
   ((v = "LeftShoulder" /\ is_left k = true) \/
    (v = "RightShoulder" /\ is_right k = true))) \/
  (v = "LeftToe" /\ last (toes_left order) = Some k) \/
  (v = "RightToe" /\ last (toes_right order) = Some k).
Proof.
  rewrite suggest_map_stages. unfold toe_pass. intros H.
  apply toe_pick_spec in H as [H|(H1 & H2 & _)]; [|auto 10].
  apply toe_pick_spec in H as [H|(H1 & H2 & _)]; [|auto 10].
  apply clavicle_pass_spec in H as [H|(Hin & Hc & H)].
  - apply after_variants_lookup in H as [H|H]; auto.
  - right. right. left. split; [exact Hin|]. split; [exact Hc|].
    destruct H as [(-> & Hl & _)|(-> & Hr & _)]; auto.
Qed.

(** X9: every entry of the suggested map sends a name of the order list
    to a name of the canonical set; no placeholder is ever a target. *)
Theorem X9_sources_and_targets order k v :
  suggest_map order !! k = Some v ->
  k ∈ order /\ v ∈ CANONICAL_GMR_SET.
Proof.
  intros H.
  apply suggest_map_origin in H
    as [(-> & H1 & H2)|[(H1 & H2)|[(H1 & _ & H2)|[(-> & H1)|(-> & H1)]]]].
  - auto.
  - split; [exact H2|].
    pose proof (proj1 (Forall_forall _ _) variant_facts _ H1) as (_ & _ & F & _).
    apply in_list_true. exact F.
  - split; [exact H1|].
    destruct H2 as [[-> _]|[-> _]]; apply in_list_true; vm_compute; reflexivity.
  - split; [apply (last_toes_left _ _ H1)|].
    apply in_list_true. vm_compute. reflexivity.
  - split; [apply (last_toes_right _ _ H1)|].
    apply in_list_true. vm_compute. reflexivity.
Qed.

Lemma X9_sources_and_targets_witness :
  suggest_map ["Hips"; "LClavicle"; "LeftToe_End"] !! "LClavicle" = Some "LeftShoulder" /\
  "LClavicle" ∈ ["Hips"; "LClavicle"; "LeftToe_End"] /\
  "LeftShoulder" ∈ CANONICAL_GMR_SET.
Proof.
  assert (H : suggest_map ["Hips"; "LClavicle"; "LeftToe_End"] !! "LClavicle" =
    Some "LeftShoulder") by (vm_compute; reflexivity).
  split; [exact H|]. exact (X9_sources_and_targets _ _ _ H).
Defined.

(** An entry of the first two passes is an entry of the final map. *)
Lemma variant_entry_final order k v :
  after_variants order !! k = Some v -> suggest_map order !! k = Some v.
Proof.
  intros H2.
  pose proof (lookup_weaken _ _ _ _ H2 (variants_in_clavicle order)) as H3.
  rewrite suggest_map_stages. unfold toe_pass.
  apply after_variants_lookup in H2.
  apply toe_pick_stable; [apply toe_pick_stable; [exact H3|]|].
  - intros Hl. apply last_toes_left in Hl as (Hl & Ht & _).
    destruct H2 as [(-> & _ & Hc)|[Hv _]].
    + apply (proj1 (Forall_forall _ _) canonical_facts _ Hc).
      rewrite Hl, Ht. reflexivity.
    + pose proof (proj1 (Forall_forall _ _) variant_facts _ Hv) as F.
      simpl in F. apply F. rewrite Hl, Ht. reflexivity.
  - intros Hr. apply last_toes_right in Hr as (Hr & Ht & _).
    destruct H2 as [(-> & _ & Hc)|[Hv _]].
    + apply (proj1 (Forall_forall _ _) canonical_facts _ Hc).
      rewrite Hr, Ht. reflexivity.
    + pose proof (proj1 (Forall_forall _ _) variant_facts _ Hv) as F.
      simpl in F. apply F. rewrite Hr, Ht. reflexivity.
Qed.

(** X10: a name of the order list that is a canonical name is mapped to
    itself, whatever else the list holds. *)
Theorem X10_canonical_name_maps_to_itself order n :
  n ∈ order -> n ∈ CANONICAL_GMR_SET -> suggest_map order !! n = Some n.
Proof.
  intros Hin Hc. apply variant_entry_final.
  apply (lookup_weaken _ _ _ _ (proj2 (after_identity_lookup order n n)
           (conj eq_refl (conj Hin Hc))) (identity_in_variants order)).
Qed.

Lemma X10_canonical_name_witness :
  suggest_map ["LeftToe_End"; "Hips"; "LeftClavicle"] !! "Hips" = Some "Hips".
Proof.
  apply X10_canonical_name_maps_to_itself.
  - apply (bool_decide_unpack _). vm_compute. exact I.
  - apply (bool_decide_unpack _). vm_compute. exact I.
Defined.

Lemma variant_fold_other order (vs : list (string * string)) : forall m s,
  s ∉ vs.*1 -> foldl (variant_step order) m vs !! s = m !! s.
Proof.
  induction vs as [|[s' d'] vs IH]; simpl; intros m s Hs; [reflexivity|].
  rewrite not_elem_of_cons in Hs. destruct Hs as [Hne Hs].
  rewrite (IH _ _ Hs). unfold variant_step. simpl.
  destruct (in_list s' order && in_list d' CANONICAL_GMR_SET); [|reflexivity].
  apply lookup_insert_ne. congruence.
Qed.

Lemma variant_fold_hit order (vs : list (string * string)) : forall m s d,
  NoDup vs.*1 -> (s, d) ∈ vs -> s ∈ order -> d ∈ CANONICAL_GMR_SET ->
  foldl (variant_step order) m vs !! s = Some d.
Proof.
  induction vs as [|[s' d'] vs IH]; simpl; intros m s d Hnd Hin Hs Hd.
  - apply elem_of_nil in Hin. contradiction.
  - apply NoDup_cons in Hnd as [Hfresh Hnd].
    apply elem_of_cons in Hin as [[= <- <-]|Hin].
    + rewrite (variant_fold_other _ _ _ _ Hfresh). unfold variant_step. simpl.
      rewrite (proj2 (in_list_true s order) Hs).
      rewrite (proj2 (in_list_true d CANONICAL_GMR_SET) Hd). simpl.
      apply lookup_insert_eq.
    + apply IH; assumption.
Qed.

(** X11: a known variant name of the order list is mapped to its base
    name: LeftToeBase to LeftToe, LeftArmRoll to LeftArm and so on, and no
    later pass changes that. *)
Theorem X11_variant_maps_to_base order s d :
  (s, d) ∈ variants -> s ∈ order -> suggest_map order !! s = Some d.
Proof.
  intros Hv Hs. apply variant_entry_final.
  unfold after_variants, variant_pass.
  apply (variant_fold_hit order variants _ s d variants_nodup Hv Hs).
  pose proof (proj1 (Forall_forall _ _) variant_facts _ Hv) as (_ & _ & F & _).
  apply in_list_true. exact F.
Qed.

Lemma X11_variant_witness :
  suggest_map ["LeftFoot"; "LeftToeBase"; "LeftToe_End"] !! "LeftToeBase" =
    Some "LeftToe".
Proof.
  apply X11_variant_maps_to_base.
  - apply (bool_decide_unpack _). vm_compute. exact I.
  - apply (bool_decide_unpack _). vm_compute. exact I.
Defined.

(** X12: the side of a target is the side of its source: a name mapped to
    a target that starts with L starts with L, and likewise with R. *)
Theorem X12_target_side_is_source_side order k v :
  suggest_map order !! k = Some v ->
  (is_left v = true -> is_left k = true) /\
  (is_right v = true -> is_right k = true).
Proof.
  intros H.
  apply suggest_map_origin in H
    as [(-> & _ & _)|[(H1 & _)|[(_ & _ & H2)|[(-> & H1)|(-> & H1)]]]].
  - auto.
  - pose proof (proj1 (Forall_forall _ _) variant_sides _ H1) as (F1 & F2 & _).
    auto.
  - destruct H2 as [[-> Hl]|[-> Hr]]; split; intros E; try exact Hl; try exact Hr;
      vm_compute in E; discriminate.
  - apply last_toes_left in H1 as (Hl & _ & _).
    split; intros E; [exact Hl|vm_compute in E; discriminate].
  - apply last_toes_right in H1 as (Hr & _ & _).
    split; intros E; [vm_compute in E; discriminate|exact Hr].
Qed.

Lemma X12_target_side_witness :
  suggest_map ["RClavicle"; "Rtoe"] !! "Rtoe" = Some "RightToe" /\
  (is_right "RightToe" = true -> is_right "Rtoe" = true).
Proof.
  assert (H : suggest_map ["RClavicle"; "Rtoe"] !! "Rtoe" = Some "RightToe")
    by (vm_compute; reflexivity).
  split; [exact H|]. exact (proj2 (X12_target_side_is_source_side _ _ _ H)).
Defined.

(** X13: a name of the order list that is neither canonical nor a known
    variant, does not contain "clavicle" in any case and has no toe hint
    is absent from the suggested map. *)
Theorem X13_unrecognised_name_unmapped order k :
  k ∉ CANONICAL_GMR_SET -> k ∉ variants.*1 ->
  clavicle_named k = false -> toe_hinted k = false ->
  suggest_map order !! k = None.
Proof.
  intros Hc Hv Hcl Ht.
  destruct (suggest_map order !! k) as [v|] eqn:E; [|reflexivity].
  exfalso.
  apply suggest_map_origin in E
    as [(_ & _ & H)|[(H & _)|[(_ & H & _)|[(_ & H)|(_ & H)]]]].
  - contradiction.
  - apply Hv. apply list_elem_of_fmap. exists (k, v). auto.
  - congruence.
  - apply last_toes_left in H as (_ & H & _). congruence.
  - apply last_toes_right in H as (_ & H & _). congruence.
Qed.

Lemma X13_unrecognised_name_witness :
  suggest_map ["Hips"; "Spine3"; "LeftToe_End"] !! "Spine3" = None.
Proof.
  apply X13_unrecognised_name_unmapped.
  - apply (bool_decide_unpack _). vm_compute. exact I.
  - apply (bool_decide_unpack _). vm_compute. exact I.
  - vm_compute. reflexivity.
  - vm_compute. reflexivity.
Defined.

(** A canonical name is a key before the toe pass exactly when it is in
    the order list. *)
Lemma canonical_key_iff order c :
  c ∈ CANONICAL_GMR_SET ->
  has_key c (after_clavicle order) = true <-> c ∈ order.
Proof.
  intros Hc. split.
  - rewrite has_key_true. intros [v Hv].
    apply clavicle_pass_spec in Hv as [Hv|(_ & Hcl & _)].
    + apply after_variants_lookup in Hv as [(_ & Hin & _)|[Hv _]]; [exact Hin|].
      pose proof (proj1 (Forall_forall _ _) variant_facts _ Hv) as (_ & F & _).
      simpl in F. apply in_list_false in F. contradiction.
    + pose proof (proj1 (Forall_forall _ _) canonical_facts _ Hc) as (F & _).
      congruence.
  - intros Hin.
    apply (has_key_mono c _ _ (variants_in_clavicle order)).
    apply (has_key_mono c _ _ (identity_in_variants order)).
    apply has_key_true. exists c. apply after_identity_lookup. auto.
Qed.

Lemma in_toes_left order k :
  k ∈ order -> is_left k && toe_hinted k = true -> k ∈ toes_left order.
Proof.
  intros Hin H. apply list_elem_of_In. apply List.filter_In.
  split; [apply list_elem_of_In; exact Hin|exact H].
Qed.

Lemma in_toes_right order k :
  k ∈ order -> is_right k && toe_hinted k = true -> k ∈ toes_right order.
Proof.
  intros Hin H. apply list_elem_of_In. apply List.filter_In.
  split; [apply list_elem_of_In; exact Hin|exact H].
Qed.

(** X14: the sources of LeftToe are the names LeftToe and LeftToeBase
    when they are in the order list, and, when LeftToe itself is not in
    it, the last left-lateral name with a toe hint; nothing else. *)
Theorem X14_left_toe_sources order k :
  suggest_map order !! k = Some "LeftToe" <->
  (k ∈ order /\ (k = "LeftToe" \/ k = "LeftToeBase")) \/
  (last (toes_left order) = Some k /\ "LeftToe" ∉ order).
Proof.
  assert (HcT : "LeftToe" ∈ CANONICAL_GMR_SET)
    by (apply in_list_true; vm_compute; reflexivity).
  split.
  - intros H. rewrite suggest_map_stages in H. unfold toe_pass in H.
    apply toe_pick_spec in H as [H|(_ & [=] & _)].
    apply toe_pick_spec in H as [H|(H1 & _ & H2)].
    + left. apply clavicle_pass_spec in H as [H|(_ & _ & [([=] & _)|([=] & _)])].
      apply after_variants_lookup in H as [(<- & Hin & _)|[Hv Hin]]; [auto|].
      split; [exact Hin|]. right.
      apply (proj1 (Forall_forall _ _) variant_toe_sources _ Hv). reflexivity.
    + right. split; [exact H1|]. intros Hin.
      apply (canonical_key_iff order _ HcT) in Hin. congruence.
  - intros [[Hin [-> | ->]]|[Hl Hn]].
    + apply variant_entry_final.
      apply (lookup_weaken _ _ _ _ (proj2 (after_identity_lookup order _ _)
               (conj eq_refl (conj Hin HcT))) (identity_in_variants order)).
    + apply variant_entry_final. unfold after_variants, variant_pass.
      apply (variant_fold_hit order variants _ _ _ variants_nodup);
        [apply (bool_decide_unpack _); vm_compute; exact I|exact Hin|exact HcT].
    + rewrite suggest_map_stages. unfold toe_pass.
      assert (Hkey : has_key "LeftToe" (after_clavicle order) = false).
      { destruct (has_key "LeftToe" (after_clavicle order)) eqn:E; [|reflexivity].
        apply (canonical_key_iff order _ HcT) in E. contradiction. }
      rewrite (toe_pick_hit _ _ _ _ Hl Hkey).
      apply toe_pick_stable; [apply lookup_insert_eq|].
      intros Hr. apply last_toes_right in Hr as (Hr & _ & _).
      apply last_toes_left in Hl as (Hl & _ & _).
      rewrite (left_not_right _ Hl) in Hr. discriminate.
Qed.

Lemma X14_left_toe_sources_witness :
  last (toes_left ["LeftFoot"; "LeftToeBase"; "LeftToe_End"]) = Some "LeftToe_End" /\
  "LeftToe" ∉ ["LeftFoot"; "LeftToeBase"; "LeftToe_End"] /\
  suggest_map ["LeftFoot"; "LeftToeBase"; "LeftToe_End"] !! "LeftToe_End" =
    Some "LeftToe".
Proof.
  assert (H1 : last (toes_left ["LeftFoot"; "LeftToeBase"; "LeftToe_End"]) =
    Some "LeftToe_End") by (vm_compute; reflexivity).
  assert (H2 : "LeftToe" ∉ ["LeftFoot"; "LeftToeBase"; "LeftToe_End"]).
  { apply (bool_decide_unpack _). vm_compute. exact I. }
  split; [exact H1|]. split; [exact H2|].
  exact (proj2 (X14_left_toe_sources _ _) (or_intror (conj H1 H2))).
Defined.

(** X15: when no left-lateral name of the order list has a toe hint, no
    name is mapped to LeftToe, which is when the report falls back to the
    orientation of the left foot; likewise on the right. *)
Theorem X15_no_candidate_no_toe order :
  (toes_left order = [] -> forall k, suggest_map order !! k <> Some "LeftToe") /\
  (toes_right order = [] -> forall k, suggest_map order !! k <> Some "RightToe").
Proof.
  split; intros Hnil k H.
  - apply suggest_map_origin in H
      as [(<- & Hin & _)|[(Hv & Hin)|[(_ & _ & [[[=] _]|[[=] _]])|[(_ & Hl)|([=] & _)]]]].
    + pose proof (in_toes_left order "LeftToe" Hin eq_refl) as E.
      rewrite Hnil in E. apply elem_of_nil in E. exact E.
    + pose proof (proj1 (Forall_forall _ _) variant_sides _ Hv) as (_ & _ & F & _).
      pose proof (in_toes_left order k Hin (F eq_refl)) as E.
      rewrite Hnil in E. apply elem_of_nil in E. exact E.
    + rewrite Hnil in Hl. discriminate.
  - apply suggest_map_origin in H
      as [(<- & Hin & _)|[(Hv & Hin)|[(_ & _ & [[[=] _]|[[=] _]])|[([=] & _)|(_ & Hr)]]]].
    + pose proof (in_toes_right order "RightToe" Hin eq_refl) as E.
      rewrite Hnil in E. apply elem_of_nil in E. exact E.
    + pose proof (proj1 (Forall_forall _ _) variant_sides _ Hv) as (_ & _ & _ & F).
      pose proof (in_toes_right order k Hin (F eq_refl)) as E.
      rewrite Hnil in E. apply elem_of_nil in E. exact E.
    + rewrite Hnil in Hr. discriminate.
Qed.

Lemma X15_no_candidate_witness :
  toes_left ["Hips"; "LeftFoot"; "RightToeBase"] = [] /\
  suggest_map ["Hips"; "LeftFoot"; "RightToeBase"] !! "LeftFoot" <> Some "LeftToe".
Proof.
  assert (H : toes_left ["Hips"; "LeftFoot"; "RightToeBase"] = [])
    by (vm_compute; reflexivity).
  split; [exact H|]. exact (proj1 (X15_no_candidate_no_toe _) H "LeftFoot").
Defined.

(** X16: the side test looks at the first character alone: a name is
    left-lateral exactly when it starts with L and right-lateral exactly
    when it starts with R, whatever follows, and never both. *)
Theorem X16_side_is_first_letter n :
  is_left n = startswith "L" n /\
  is_right n = startswith "R" n /\
  is_left n && is_right n = false.
Proof.
  assert (HL : is_left n = startswith "L" n).
  { unfold is_left. simpl. destruct n as [|c n]; [reflexivity|]. simpl.
    destruct (is_char "L" c); simpl; [|reflexivity].
    first [apply orb_true_r | rewrite orb_false_r; apply orb_true_r]. }
  assert (HR : is_right n = startswith "R" n).
  { unfold is_right. simpl. destruct n as [|c n]; [reflexivity|]. simpl.
    destruct (is_char "R" c); simpl; [|reflexivity].
    first [apply orb_true_r | rewrite orb_false_r; apply orb_true_r]. }
  split; [exact HL|]. split; [exact HR|].
  destruct (is_left n) eqn:E; [|reflexivity].
  rewrite (left_not_right _ E). reflexivity.
Qed.

End MapperMore.
